(** * CSet: an ordered-array set in C (cset.c), embedded in Rocq.

    The C functions of [cset.c] are translated one by one.  A [CSet] record
    mirrors [struct CSetImplementation]; heap-allocated sets live in a
    finite map from addresses to records, and a [CSet*] is an optional
    address ([None] is [NULL]).  Behaviour that C leaves undefined (a null
    or dangling dereference, a failed [assert], a write past a fixed
    buffer, an oversized shift) is an explicit [Fault]. *)

From Stdlib Require Import ZArith String Lia.
From stdpp Require Import base option list gmap strings pretty.

Local Open Scope Z_scope.

(** ** Outcomes of a C call *)

Inductive fault : Type :=
  | NullDeref        (* dereference of NULL *)
  | BadDeref         (* dereference of an address that is not allocated *)
  | OutOfBounds      (* read or write outside the live part of a buffer *)
  | AssertFail       (* a failed assert *)
  | Undefined        (* arithmetic that C leaves undefined *)
  | BufferOverflow   (* strcat past the end of a fixed char array *)
  | TornSlot         (* a byte move that ends inside a slot, which then
                        holds bytes of two values *)
  | OutOfFuel.       (* the loop bound of the embedding was too small *)

Inductive result (T : Type) : Type :=
  | Ret (x : T)
  | Fault (f : fault).
Arguments Ret {T} x.
Arguments Fault {T} f.

#[global] Instance result_ret : MRet result := fun _ x => Ret x.
#[global] Instance result_bind : MBind result := fun _ _ k m =>
  match m with Ret x => k x | Fault f => Fault f end.

Definition assert (b : bool) : result unit :=
  if b then Ret tt else Fault AssertFail.

(** ** Machine integers *)

(** [size_t] on the 64-bit target: unsigned, wraps modulo 2^64. *)
Definition size_t (z : Z) : Z := z mod 2 ^ 64.

(** [int] results of a subtraction, wrapped to 32 bits two's complement. *)
Definition int32 (z : Z) : Z := (z + 2 ^ 31) mod 2 ^ 32 - 2 ^ 31.

Definition DEFAULT_CAPACITY : Z := 32.
Definition RESIZE_FACTOR : Z := 2.
Definition SET_STR_MAX_LEN : Z := 2000.

(** ** The set record and its element-level functions *)

Section CSetImplementation.

(** [A] is the type of the values held in the element slots; [W] is the
    rest of memory, which the client callbacks read or modify. *)
Context {W A : Type}.

(** The callbacks see the slot and the memory [W] the slots refer to.
    What a slot points to lives in [W]: for a set of sets, [W] is itself a
    heap of sets (see [cset_cleanup]), one level below the heap that holds
    the set.  A set that is at once handed to an operation and stored in a
    slot of another operand lies in both levels and is not represented. *)
Definition CompareFn : Type := W → A → A → result Z.
Definition CleanupElemFn : Type := A → W → result W.
Definition ToStringFn : Type := W → A → result (option string).

(** [elements] holds the live slots [0 .. n_elements-1] of the buffer, in
    storage order, and [n_elements] is their number.  The slots between
    [n_elements] and [capacity] carry no information: no result of any
    function depends on what they hold, so they are not represented and
    [capacity] is kept as the number the code computes. *)
Record CSet : Type := mkCSet {
  elements : list A;
  elemsz : Z;
  capacity : Z;
  cmp_fn : CompareFn;
  cleanup_fn : option CleanupElemFn;
  toString_fn : option ToStringFn
}.

Definition n_elements (set : CSet) : Z := Z.of_nat (length (elements set)).

Definition with_elements (set : CSet) (l : list A) : CSet :=
  mkCSet l (elemsz set) (capacity set) (cmp_fn set) (cleanup_fn set)
         (toString_fn set).

Definition with_capacity (set : CSet) (c : Z) : CSet :=
  mkCSet (elements set) (elemsz set) c (cmp_fn set) (cleanup_fn set)
         (toString_fn set).

(** [nth]: the slot at index [n]; only live slots may be read. *)
Definition nth (set : CSet) (n : Z) : result A :=
  if (0 <=? n) && (n <? n_elements set)
  then match elements set !! Z.to_nat n with
       | Some x => Ret x
       | None => Fault OutOfBounds
       end
  else Fault OutOfBounds.

Definition check_resize (set : CSet) : CSet :=
  if n_elements set >=? size_t (capacity set - 1)
  then with_capacity set (size_t (capacity set * RESIZE_FACTOR))
  else set.

(** [insert]: memmove of the slots from [index] on by one slot, then
    memcpy of [elem] into slot [index]. *)
Definition insert (set : CSet) (elem : A) (index : Z) : result CSet :=
  if (0 <=? index) && (index <=? n_elements set)
  then Ret (with_elements set
              (take (Z.to_nat index) (elements set) ++
               elem :: drop (Z.to_nat index) (elements set)))
  else Fault OutOfBounds.

(** [cset_create]: [elemsz0] and [capacity_hint] stand for the [size_t]
    arguments.  The two [malloc] calls are taken to succeed: the request of
    [elemsz * capacity] bytes and the [assert] on the two pointers are not
    represented, so a call whose buffer the machine cannot provide, which
    aborts in C, is outside this definition. *)
Definition cset_create (elemsz0 capacity_hint : Z)
    (cmp : option CompareFn) (cleanup : option CleanupElemFn)
    (toString : option ToStringFn) : result CSet :=
  match cmp with
  | None => Fault AssertFail
  | Some cmp =>
      let capacity0 :=
        if capacity_hint =? 0 then DEFAULT_CAPACITY else capacity_hint in
      Ret (mkCSet [] elemsz0 capacity0 cmp cleanup toString)
  end.

(** The halving loop of [cset_add].  [None]: an equal element was met
    (the function returns false); [Some index]: the loop ran to its end. *)
Fixpoint add_search (fuel : nat) (w : W) (set : CSet) (elem : A)
    (partial_sz index : Z) : result (option Z) :=
  if partial_sz >? 1 then
    match fuel with
    | O => Fault OutOfFuel
    | S fuel' =>
        slot ← nth set index;
        cmp_result ← cmp_fn set w elem slot;
        let partial_sz := partial_sz ÷ 2 in
        if cmp_result =? 0 then Ret None
        else if cmp_result >? 0
             then add_search fuel' w set elem partial_sz
                             (index + partial_sz ÷ 2)
             else add_search fuel' w set elem partial_sz
                             (index - partial_sz ÷ 2)
    end
  else Ret (Some index).

(** The linear loop of [cset_add] that follows the halving loop. *)
Fixpoint add_scan (fuel : nat) (w : W) (set : CSet) (elem : A)
    (index : Z) : result Z :=
  if index <? n_elements set then
    match fuel with
    | O => Fault OutOfFuel
    | S fuel' =>
        slot ← nth set index;
        c ← cmp_fn set w elem slot;
        if c >? 0 then add_scan fuel' w set elem (index + 1)
        else Ret index
    end
  else Ret index.

Definition cset_add (w : W) (set : CSet) (elem : A)
    : result (bool * CSet) :=
  let partial_sz := n_elements set in
  let index := partial_sz ÷ 2 in
  r ← add_search (Z.to_nat partial_sz) w set elem partial_sz index;
  match r with
  | None => Ret (false, set)
  | Some index =>
      let index := if index =? 1 then 0 else index in
      index ← add_scan (S (Z.to_nat partial_sz)) w set elem index;
      let set := check_resize set in
      set ← insert set elem index;
      Ret (true, set)
  end.

(** [bsearch] of the C library, as its usual halving loop over the
    index range [l, u); the result is the index of the slot found. *)
Fixpoint bsearch (fuel : nat) (w : W) (compar : CompareFn) (key : A)
    (base : list A) (l u : Z) : result (option Z) :=
  if l <? u then
    match fuel with
    | O => Fault OutOfFuel
    | S fuel' =>
        let idx := (l + u) ÷ 2 in
        match base !! Z.to_nat idx with
        | None => Fault OutOfBounds
        | Some p =>
            comparison ← compar w key p;
            if comparison <? 0 then bsearch fuel' w compar key base l idx
            else if comparison >? 0
                 then bsearch fuel' w compar key base (idx + 1) u
                 else Ret (Some idx)
        end
    end
  else Ret None.

Definition cset_bsearch (w : W) (set : CSet) (elem : A)
    : result (option Z) :=
  bsearch (S (length (elements set))) w (cmp_fn set) elem (elements set)
          0 (n_elements set).

Definition cset_contains (w : W) (set : CSet) (elem : A) : result bool :=
  found ← cset_bsearch w set elem;
  Ret (bool_decide (found ≠ None)).

(** The address of slot [n], as a byte offset from [set->elements]:
    [nth] computes [(char* )set->elements + n * set->elemsz]. *)
Definition nth_address (set : CSet) (n : Z) : Z :=
  size_t (n * elemsz set).

(** [get_index]: the offset of [elem] divided by the element size, as an
    [int]; a division by an element size of 0 is undefined. *)
Definition get_index (set : CSet) (elem : Z) : result Z :=
  if elemsz set =? 0 then Fault Undefined
  else Ret (int32 (size_t elem ÷ elemsz set)).

(** [memmove(found, nth(set, index + 1), bytes_left)] followed by
    [n_elements--], where [found] is the address of slot [k].  The slots
    from [index + 1] on, as many as [bytes_left] covers, are copied to the
    slots from [k] on, and the first [n_elements - 1] slots stay live.  A
    negative [int] length is a [size_t] beyond any buffer; a length that
    is no multiple of the element size ends inside a slot; source and
    destination must lie within the [capacity] slots of the buffer; a
    source slot past the live ones holds no value and may only land on a
    slot that is no longer live. *)
Definition remove_move (set : CSet) (k index bytes_left : Z)
    : result (list A) :=
  if bytes_left <? 0 then Fault OutOfBounds
  else if negb (Z.rem bytes_left (elemsz set) =? 0) then Fault TornSlot
  else
    let count := bytes_left ÷ elemsz set in
    let moved :=
      take (Z.to_nat count) (drop (Z.to_nat (index + 1)) (elements set)) in
    if (0 <=? k) && (0 <=? index + 1)
       && (index + 1 + count <=? capacity set)
       && (k + count <=? capacity set)
       && ((Z.of_nat (length moved) =? count)
           || (n_elements set - 1 <=? k + Z.of_nat (length moved)))
    then Ret (take (Z.to_nat (n_elements set - 1))
                (take (Z.to_nat k) (elements set) ++ moved ++
                 drop (Z.to_nat (k + count)) (elements set)))
    else Fault OutOfBounds.

(** [cset_remove]: [bsearch] returns the address of the slot found, from
    which [get_index] recovers the index; [bytes_left] is the [size_t]
    product [(n_elements - index) * elemsz] stored in an [int].  The
    function does not read [cleanup_fn]; the client's memory is returned
    as it was received. *)
Definition cset_remove (w : W) (set : CSet) (elem : A)
    : result (bool * CSet * W) :=
  found ← cset_bsearch w set elem;
  match found with
  | None => Ret (false, set, w)
  | Some k =>
      index ← get_index set (nth_address set k);
      let bytes_left :=
        int32 (size_t (size_t (n_elements set - index) * elemsz set)) in
      l ← remove_move set k index bytes_left;
      Ret (true, with_elements set l, w)
  end.

(** The cleanup loop shared by [cset_delete] and [cset_clear]. *)
Fixpoint cleanup_all (f : CleanupElemFn) (l : list A) (w : W) : result W :=
  match l with
  | [] => Ret w
  | x :: l' => w' ← f x w; cleanup_all f l' w'
  end.

Definition cleanup_elements (set : CSet) (w : W) : result W :=
  match cleanup_fn set with
  | None => Ret w
  | Some f => cleanup_all f (elements set) w
  end.

Definition cset_clear (w : W) (set : CSet) : result (CSet * W) :=
  w' ← cleanup_elements set w;
  Ret (with_elements set [], w').

Definition cset_size (set : CSet) : Z := n_elements set.
Definition cset_cardinality (set : CSet) : Z := cset_size set.
Definition cset_isEmpty (set : CSet) : bool := n_elements set =? 0.

End CSetImplementation.

Arguments CSet : clear implicits.
Arguments CompareFn : clear implicits.
Arguments CleanupElemFn : clear implicits.
Arguments ToStringFn : clear implicits.

(** ** Sets in the heap *)

Definition addr : Type := positive.

(** A [CSet*]: [None] is [NULL]. *)
Definition pointer : Type := option addr.

Section Heap.

Context {W A : Type}.

(** The heap of allocated sets together with the client's memory. *)
Record state : Type := mkState {
  sets : gmap addr (CSet W A);
  mem : W
}.

Definition deref (st : state) (p : pointer) : result (CSet W A) :=
  match p with
  | None => Fault NullDeref
  | Some a =>
      match sets st !! a with
      | Some set => Ret set
      | None => Fault BadDeref
      end
  end.

Definition store (st : state) (a : addr) (set : CSet W A) : state :=
  mkState (<[a := set]> (sets st)) (mem st).

(** [malloc] of a set record: an address that is not in use. *)
Definition malloc (st : state) : addr := fresh (dom (sets st)).

(** [cset_create] as the callers of this file see it: the new record is
    placed at a fresh address. *)
Definition cset_create_at (st : state) (elemsz0 capacity_hint : Z)
    (cmp : option (CompareFn W A)) (cleanup : option (CleanupElemFn W A))
    (toString : option (ToStringFn W A)) : result (state * addr) :=
  set ← cset_create elemsz0 capacity_hint cmp cleanup toString;
  let a := malloc st in
  Ret (store st a set, a).

Definition cset_delete (st : state) (p : pointer) : result state :=
  set ← deref st p;
  w' ← cleanup_elements set (mem st);
  match p with
  | None => Fault NullDeref
  | Some a => Ret (mkState (delete a (sets st)) w')
  end.

(** A call [cset_add(p, elem)] on a set in the heap. *)
Definition cset_add_at (st : state) (p : pointer) (elem : A)
    : result (bool * state) :=
  set ← deref st p;
  '(added, set') ← cset_add (mem st) set elem;
  match p with
  | None => Fault NullDeref
  | Some a => Ret (added, store st a set')
  end.

Definition cset_contains_at (st : state) (p : pointer) (elem : A)
    : result bool :=
  set ← deref st p;
  cset_contains (mem st) set elem.

(** [for (i = 0; i < set1->n_elements; i++) if (!contains(set2, nth(set1, i))) return false;] *)
Fixpoint isSubsetOf_loop (fuel : nat) (st : state) (set1 set2 : pointer)
    (i : Z) : result bool :=
  s1 ← deref st set1;
  if i <? n_elements s1 then
    match fuel with
    | O => Fault OutOfFuel
    | S fuel' =>
        ith ← nth s1 i;
        c ← cset_contains_at st set2 ith;
        if negb c then Ret false
        else isSubsetOf_loop fuel' st set1 set2 (i + 1)
    end
  else Ret true.

Definition cset_isSubsetOf (st : state) (set1 set2 : pointer)
    : result bool :=
  if decide (set1 = set2) then Ret true
  else
    s1 ← deref st set1;
    isSubsetOf_loop (length (elements s1)) st set1 set2 0.

(** The loop shape shared by union, intersect and difference:
    [for (i = 0; i < bound; i++) if (keep(nth(src, i))) cset_add(dst, nth(src, i));]
    where [bound] and [keep] are evaluated in the current state. *)
Fixpoint add_loop (fuel : nat) (bound : state → result Z)
    (keep : state → A → result bool) (st : state) (dst src : pointer)
    (i : Z) : result state :=
  b ← bound st;
  if i <? b then
    match fuel with
    | O => Fault OutOfFuel
    | S fuel' =>
        s ← deref st src;
        ith ← nth s i;
        k ← keep st ith;
        st1 ← (if k : bool
               then r ← cset_add_at st dst ith; Ret (snd r)
               else Ret st);
        add_loop fuel' bound keep st1 dst src (i + 1)
    end
  else Ret st.

Definition size_of (p : pointer) (st : state) : result Z :=
  s ← deref st p; Ret (n_elements s).

Definition cset_union (st : state) (set1 set2 : pointer)
    : result (state * pointer) :=
  if bool_decide (set1 = None) || bool_decide (set2 = None)
  then Ret (st, None)
  else
    s1 ← deref st set1;
    s2 ← deref st set2;
    _ ← assert (elemsz s1 =? elemsz s2);
    '(st, u) ← cset_create_at st (elemsz s1) (capacity s1)
                 (Some (cmp_fn s1)) (cleanup_fn s1) (toString_fn s1);
    st ← add_loop (length (elements s1)) (size_of set1)
           (fun _ _ => Ret true) st (Some u) set1 0;
    st ← add_loop (length (elements s2)) (size_of set2)
           (fun _ _ => Ret true) st (Some u) set2 0;
    Ret (st, Some u).

Definition cset_intersect (st : state) (set1 set2 : pointer)
    : result (state * pointer) :=
  if bool_decide (set1 = None) || bool_decide (set2 = None)
  then Ret (st, None)
  else
    s1 ← deref st set1;
    s2 ← deref st set2;
    _ ← assert (elemsz s1 =? elemsz s2);
    '(st, intersect) ← cset_create_at st (elemsz s1) (capacity s1)
                 (Some (cmp_fn s1)) (cleanup_fn s1) (toString_fn s1);
    let smaller_sz :=
      if n_elements s1 <? n_elements s2 then n_elements s1
      else n_elements s2 in
    st ← add_loop (Z.to_nat smaller_sz) (fun _ => Ret smaller_sz)
           (fun st ith => cset_contains_at st set2 ith)
           st (Some intersect) set1 0;
    Ret (st, Some intersect).

Definition cset_difference (st : state) (set1 set2 : pointer)
    : result (state * pointer) :=
  if bool_decide (set1 = None) || bool_decide (set2 = None)
  then Ret (st, None)
  else
    s1 ← deref st set1;
    s2 ← deref st set2;
    _ ← assert (elemsz s1 =? elemsz s2);
    '(st, diff) ← cset_create_at st (elemsz s1) (capacity s1)
                 (Some (cmp_fn s1)) (cleanup_fn s1) (toString_fn s1);
    st ← add_loop (length (elements s1)) (size_of set1)
           (fun st ith => c ← cset_contains_at st set2 ith; Ret (negb c))
           st (Some diff) set1 0;
    Ret (st, Some diff).

Definition cset_symmetricDifference (st : state) (set1 set2 : pointer)
    : result (state * pointer) :=
  '(st, diff1) ← cset_difference st set1 set2;
  '(st, diff2) ← cset_difference st set2 set1;
  '(st, symm_diff) ← cset_union st diff1 diff2;
  st ← cset_delete st diff1;
  st ← cset_delete st diff2;
  Ret (st, symm_diff).

End Heap.

Arguments state : clear implicits.

(** ** Rendering *)

(** [strcat] into [char set_str[SET_STR_MAX_LEN]]: the result and its
    terminating NUL must fit into the array. *)
Definition strcat (set_str s : string) : result string :=
  if Z.of_nat (String.length set_str + String.length s) <? SET_STR_MAX_LEN
  then Ret (set_str +:+ s)
  else Fault BufferOverflow.

Section Rendering.

Context {W A : Type}.

(** The loop of [cset_toString] from slot [i] on; [l] are the slots
    [i .. n-1]. *)
Fixpoint toString_loop (f : ToStringFn W A) (w : W) (n : Z) (l : list A)
    (i : Z) (set_str : string) : result string :=
  match l with
  | [] => Ret set_str
  | x :: l' =>
      r ← f w x;
      match r with
      | None => Fault NullDeref
      | Some elem_str =>
          set_str ← strcat set_str elem_str;
          set_str ← (if bool_decide (i ≠ n - 1)
                     then strcat set_str ", " else Ret set_str);
          toString_loop f w n l' (i + 1) set_str
      end
  end.

(** [cset_toString]: [Ret None] is the NULL string. *)
Definition cset_toString (w : W) (set : CSet W A)
    : result (option string) :=
  match toString_fn set with
  | None => Ret None
  | Some f =>
      set_str ← toString_loop f w (n_elements set) (elements set) 0 "{";
      set_str ← strcat set_str "}";
      Ret (Some set_str)
  end.

End Rendering.

(** ** Sets as elements: the generic capability triple *)

Section Nested.

Context {W A : Type}.

(** The comparison loop of [cset_compare], entered when both sets have
    the same number of elements. *)
Fixpoint compare_loop (cmp : CompareFn W A) (w : W) (l1 l2 : list A)
    : result Z :=
  match l1, l2 with
  | [], _ => Ret 0
  | _ :: _, [] => Fault OutOfBounds
  | x :: l1', y :: l2' =>
      cmp_result ← cmp w x y;
      if bool_decide (cmp_result ≠ 0) then Ret cmp_result
      else compare_loop cmp w l1' l2'
  end.

(** The slots compared hold [CSet*] values. *)
Definition cset_compare : CompareFn (state W A) pointer :=
  fun st set1 set2 =>
    if bool_decide (set1 = set2) then Ret 0
    else
      s1 ← deref st set1;
      s2 ← deref st set2;
      if bool_decide (n_elements s1 ≠ n_elements s2)
      then Ret (n_elements s1 - n_elements s2)
      else if bool_decide (elemsz s1 ≠ elemsz s2)
      then Ret (int32 (size_t (elemsz s1 - elemsz s2)))
      else compare_loop (cmp_fn s1) (mem st) (elements s1) (elements s2).

Definition cset_cleanup : CleanupElemFn (state W A) pointer :=
  fun set st => cset_delete st set.

Definition cset_genericToString : ToStringFn (state W A) pointer :=
  fun st set => s ← deref st set; cset_toString (mem st) s.

(** ** The power set *)

Fixpoint popcount_pos (p : positive) : Z :=
  match p with
  | xH => 1
  | xO q => popcount_pos q
  | xI q => 1 + popcount_pos q
  end.

(** [__builtin_popcount]. *)
Definition popcount (z : Z) : Z :=
  match z with Zpos p => popcount_pos p | _ => 0 end.

(** [for (i = 0; i < set_size; i++) if ((bit_vector >> i) & 1) cset_add(subset, nth(set, i));] *)
Fixpoint subset_loop (fuel : nat) (st : state W A) (set subset : pointer)
    (bit_vector set_size i : Z) : result (state W A) :=
  if i <? set_size then
    match fuel with
    | O => Fault OutOfFuel
    | S fuel' =>
        st1 ← (if negb (Z.land (Z.shiftr bit_vector i) 1 =? 0)
               then s ← deref st set;
                    ith ← nth s i;
                    r ← cset_add_at st subset ith;
                    Ret (snd r)
               else Ret st);
        subset_loop fuel' st1 set subset bit_vector set_size (i + 1)
    end
  else Ret st.

(** The outer loop over the bit vectors [bit_vector .. pset_size-1]. *)
Fixpoint powerSet_loop (fuel : nat) (st : state W A) (set : pointer)
    (power_set : CSet (state W A) pointer)
    (set_size pset_size bit_vector : Z)
    : result (state W A * CSet (state W A) pointer) :=
  if bit_vector <? pset_size then
    match fuel with
    | O => Fault OutOfFuel
    | S fuel' =>
        s ← deref st set;
        r ← cset_create_at st (elemsz s) (popcount bit_vector)
              (Some (cmp_fn s)) (cleanup_fn s) (toString_fn s);
        let subset := Some (snd r) in
        st1 ← subset_loop (Z.to_nat set_size) (fst r) set subset
                bit_vector set_size 0;
        a ← cset_add st1 power_set subset;
        powerSet_loop fuel' st1 set (snd a) set_size pset_size
                      (bit_vector + 1)
    end
  else Ret (st, power_set).

(** [cset_powerSet]: the inner sets are allocated in the heap; the
    result is the record of the outer set.  [1 << set_size] is an [int]
    shift, undefined from 31 bits on; [sizeof(CSet* )] is 8. *)
Definition cset_powerSet (st : state W A) (set : pointer)
    : result (state W A * CSet (state W A) pointer) :=
  s ← deref st set;
  let set_size := n_elements s in
  if 31 <=? set_size then Fault Undefined
  else
    let pset_size := Z.shiftl 1 set_size in
    power_set ← cset_create 8 pset_size (Some cset_compare)
                  (Some cset_cleanup) (Some cset_genericToString);
    r ← cset_create_at st (elemsz s) 1
          (Some (cmp_fn s)) (cleanup_fn s) (toString_fn s);
    let empty := Some (snd r) in
    a ← cset_add (fst r) power_set empty;
    powerSet_loop (Z.to_nat pset_size) (fst r) set (snd a)
                  set_size pset_size 1.

End Nested.

(** ** The client of set_test.c: sets of [int] *)

Module IntClient.

(** The client's memory is the sequence of slots on which a cleanup
    callback has been invoked so far. *)
Definition world : Type := list Z.

(** [compare_ints]: [num1 - num2], an [int] subtraction. *)
Definition compare_ints : CompareFn world Z :=
  fun _ num1 num2 => Ret (int32 (num1 - num2)).

(** [print_int]: [sprintf "%d"]. *)
Definition print_int : ToStringFn world Z :=
  fun _ num => Ret (Some (pretty num)).

(** A cleanup callback that records the slot it is handed. *)
Definition cleanup_int : CleanupElemFn world Z :=
  fun num w => Ret (w ++ [num]).

Definition empty_state : state world Z := mkState ∅ [].

(** [cset_create(sizeof(int), hint, compare_ints, cleanup, print_int)]
    followed by [cset_add] of each value of [values], in order. *)
Definition add_all (w : world) (set : CSet world Z) (values : list Z)
    : result (CSet world Z) :=
  foldl (fun acc v => s ← acc; r ← cset_add w s v; Ret (snd r))
        (Ret set) values.

Definition build (hint : Z) (cleanup : option (CleanupElemFn world Z))
    (values : list Z) : result (CSet world Z) :=
  set ← cset_create 4 hint (Some compare_ints) cleanup (Some print_int);
  add_all [] set values.

(** The same, for a set allocated in the heap. *)
Definition build_at (st : state world Z) (hint : Z) (values : list Z)
    : result (state world Z * pointer) :=
  r ← cset_create_at st 4 hint (Some compare_ints) None (Some print_int);
  st' ← foldl (fun acc v => s ← acc; r' ← cset_add_at s (Some (snd r)) v;
                            Ret (snd r'))
              (Ret (fst r)) values;
  Ret (st', Some (snd r)).

(** Two sets in the heap, built from [l1] and [l2], handed to a binary
    operation; the observation is the element list of the result. *)
Definition binary_on (l1 l2 : list Z)
    (op : state world Z → pointer → pointer
          → result (state world Z * pointer))
    : result (list Z) :=
  r1 ← build_at empty_state 5 l1;
  r2 ← build_at (fst r1) 5 l2;
  r ← op (fst r2) (snd r1) (snd r2);
  s ← deref (fst r) (snd r);
  Ret (elements s).

End IntClient.

(** Two empty sets of different make, used to exercise [cset_compare]. *)
Module CompareData.
Import IntClient.

(** Two empty sets of 4-byte elements with different capacities and
    different capability triples. *)
Definition left_set : CSet world Z :=
  mkCSet [] 4 32 compare_ints None (Some print_int).
Definition right_set : CSet world Z :=
  mkCSet [] 4 1 (fun _ _ _ => Ret 1) (Some cleanup_int) None.
Definition two_empty : state world Z :=
  mkState (<[2%positive := right_set]> (<[1%positive := left_set]> ∅)) [].

End CompareData.

(** Two int sets in a heap, the operands of the set-algebra scenario. *)
Module AlgebraData.
Import IntClient.

Definition set_a : CSet world Z :=
  mkCSet [1; 2; 3; 4; 5] 4 10 compare_ints (Some cleanup_int)
         (Some print_int).
Definition set_b : CSet world Z :=
  mkCSet [4; 5; 6; 7; 8] 4 10 compare_ints None (Some print_int).
Definition two_sets : state world Z :=
  mkState (<[2%positive := set_b]> (<[1%positive := set_a]> ∅)) [].

End AlgebraData.

(** ** The rendered text, as the specification words it *)

(** The text [{e1, e2, ..., en}]: the pieces separated by [sep]. *)
Fixpoint join_with (sep : string) (l : list string) : string :=
  match l with
  | [] => ""
  | [s] => s
  | s :: l' => s +:+ sep +:+ join_with sep l'
  end.

Definition rendering (l : list string) : string :=
  "{" +:+ join_with ", " l +:+ "}".

Module RenderingData.
Import IntClient.

(** The set of the specification's rendering scenario. *)
Definition scenario_set : CSet world Z :=
  mkCSet [1; 2; 3; 5; 6; 12; 15] 4 10 compare_ints None (Some print_int).

(** 200 ten-digit values, in ascending order. *)
Definition long_values : list Z :=
  (fun i : nat => 1000000000 + Z.of_nat i) <$> seq 0 200.

End RenderingData.

(** ** Predicates used in the statements *)

Section Predicates.

Context {W A : Type}.

(** The comparator answers on every stored slot. *)
Definition answers (w : W) (set : CSet W A) (elem : A) : Prop :=
  ∀ y, y ∈ elements set → ∃ z, cmp_fn set w elem y = Ret z.

(** A comparator that returns on every pair of slots, in memory [w]. *)
Definition total_cmp (cmp : CompareFn W A) (w : W) : Prop :=
  ∀ x y, ∃ z, cmp w x y = Ret z.

(** [u'] has the element size and the capability triple of [u]. *)
Definition same_caps (u u' : CSet W A) : Prop :=
  elemsz u' = elemsz u ∧ cmp_fn u' = cmp_fn u
  ∧ cleanup_fn u' = cleanup_fn u ∧ toString_fn u' = toString_fn u.

(** The states met while the new set at [d] is filled: the heap [h] of
    the operands, extended at [d]. *)
Definition filling (h : gmap addr (CSet W A)) (w : W) (d : addr)
    (u : CSet W A) : state W A :=
  mkState (<[d := u]> h) w.

(** The outcome of a binary operation that writes only the set it
    creates: it returns a set [u] with the capabilities of [s1] at an
    address [d] that was not allocated in [st]; the sets of [st] and the
    client's memory are as they were. *)
Definition writes_new_set_only (st : state W A) (s1 : CSet W A)
    (r : result (state W A * pointer)) : Prop :=
  ∃ st' d u, r = Ret (st', Some d)
             ∧ sets st !! d = None
             ∧ sets st' = <[d := u]> (sets st)
             ∧ mem st' = mem st
             ∧ same_caps s1 u.

End Predicates.

Section PowerDefs.
Context {A : Type}.

(** [l] is strictly ascending under the sign function [c]: every element
    compares equal to itself, below each later one, and each later one
    above it. *)
Fixpoint ordered (c : A → A → Z) (l : list A) : Prop :=
  match l with
  | [] => True
  | x :: l' =>
      c x x = 0 ∧ Forall (fun y => c x y < 0 ∧ 0 < c y x) l' ∧ ordered c l'
  end.

(** The slots of [l] chosen by the bits [i], [i+1], ... of [bit_vector]. *)
Fixpoint pick (bit_vector : Z) (i : Z) (l : list A) : list A :=
  match l with
  | [] => []
  | x :: l' =>
      if Z.testbit bit_vector i then x :: pick bit_vector (i + 1) l'
      else pick bit_vector (i + 1) l'
  end.

End PowerDefs.

Section OrderPreds.
Context {A : Type}.

(** [c] gives the sign of a total order on the elements of [l]:
    reflexive, antisymmetric in sign, transitive. *)
Definition valid_order (c : A → A → Z) (l : list A) : Prop :=
  (∀ x, x ∈ l → c x x = 0)
  ∧ (∀ x y, x ∈ l → y ∈ l → c x y < 0 → 0 < c y x)
  ∧ (∀ x y z, x ∈ l → y ∈ l → z ∈ l → c x y < 0 → c y z < 0 → c x z < 0).

(** Adjacent slots compare strictly ascending. *)
Definition strictly_sorted (c : A → A → Z) (l : list A) : Prop :=
  ∀ (i : nat) x y, l !! i = Some x → l !! S i = Some y → c x y < 0.

End OrderPreds.

Section PowerPreds.
Context {W A : Type}.

(** [p] points, in [st], to a set other than the one at [a] that has the
    capabilities of [s] and holds the slots of [s] chosen by [bv]. *)
Definition subset_at (st : state W A) (a : addr) (s : CSet W A)
    (p : pointer) (bv : Z) : Prop :=
  ∃ q u, p = Some q ∧ q ≠ a ∧ sets st !! q = Some u
         ∧ same_caps s u ∧ elements u = pick bv 0 (elements s).

(** The state of [cset_powerSet] when the bit vectors below [k] are done:
    the outer set [ps] holds [k] pointers, each to the subset of some bit
    vector below [k], one of them (if any) to that of bit vector 0. *)
Definition generated (a : addr) (s : CSet W A) (w : W)
    (st : state W A) (ps : CSet (state W A) pointer) (k : Z) : Prop :=
  sets st !! a = Some s ∧ mem st = w
  ∧ cmp_fn ps = cset_compare
  ∧ n_elements ps = k
  ∧ (∀ p, p ∈ elements ps → ∃ bv, 0 ≤ bv < k ∧ subset_at st a s p bv)
  ∧ (0 < k → ∃ p, p ∈ elements ps ∧ subset_at st a s p 0).

End PowerPreds.

(** The set {1,2} in a heap, the input of the power-set scenario. *)
Module PowerData.
Import IntClient.

Definition pair_set : CSet world Z :=
  mkCSet [1; 2] 4 5 compare_ints None (Some print_int).
Definition one_set : state world Z :=
  mkState (<[1%positive := pair_set]> ∅) [].

(** The sign function of [compare_ints]. *)
Definition int_sign (num1 num2 : Z) : Z := int32 (num1 - num2).

(** The values 1 .. 31, in ascending order. *)
Definition thirty_one : list Z := Z.of_nat <$> seq 1 31.

(** The size of the input and of the power set of the set built from
    [values]. *)
Definition powerSet_sizes (values : list Z) : result (Z * Z) :=
  r ← build_at empty_state 5 values;
  s ← deref (fst r) (snd r);
  p ← cset_powerSet (fst r) (snd r);
  Ret (cset_size s, cset_size (snd p)).

End PowerData.

(** ** Iteration *)

Section Iteration.

Context {W A : Type}.

(** [cset_first]: [None] is NULL. *)
Definition cset_first (set : CSet W A) : option Z :=
  if cset_isEmpty set then None else Some 0.

Definition cset_next (set : CSet W A) (prev : Z) : result (option Z) :=
  index ← get_index set prev;
  if index =? n_elements set - 1 then Ret None
  else Ret (Some (nth_address set (index + 1))).

(** The value in the slot at address [a]. *)
Definition slot_at (set : CSet W A) (a : Z) : result A :=
  index ← get_index set a; nth set index.

(** The loop the iterators are made for,
    [for (p = cset_first(set); p != NULL; p = cset_next(set, p))],
    from [p] on: the addresses it visits. *)
Fixpoint visit (fuel : nat) (set : CSet W A) (p : option Z)
    : result (list Z) :=
  match p with
  | None => Ret []
  | Some a =>
      match fuel with
      | O => Fault OutOfFuel
      | S fuel' =>
          q ← cset_next set a;
          rest ← visit fuel' set q;
          Ret (a :: rest)
      end
  end.

Definition cset_traverse (set : CSet W A) : result (list Z) :=
  visit (length (elements set)) set (cset_first set).

End Iteration.

(** Sets of the int client on which the further properties are exercised. *)
Module ExtraData.
Import IntClient.

Definition sorted_set : CSet world Z :=
  mkCSet [1; 3; 5; 7] 4 10 compare_ints (Some cleanup_int) (Some print_int).

(** Two sets of ints without cleanup, and a set of pointers to them. *)
Definition plain_a : CSet world Z :=
  mkCSet [1; 2] 4 2 compare_ints None (Some print_int).
Definition plain_b : CSet world Z :=
  mkCSet [2; 3] 4 2 compare_ints None (Some print_int).
Definition inner_heap : state world Z :=
  mkState (<[2%positive := plain_b]> (<[1%positive := plain_a]> ∅)) [].
Definition outer_set : CSet (state world Z) pointer :=
  mkCSet [Some 1%positive; Some 2%positive] 8 4 cset_compare
         (Some cset_cleanup) (Some cset_genericToString).

(** [cset_contains] on [AlgebraData.set_b], for the slots of
    [AlgebraData.set_a]. *)
Definition in_b (x : Z) : bool := 4 <=? x.

(** The operands of the set-algebra scenario, both with the recording
    cleanup callback. *)
Definition clean_a : CSet world Z :=
  mkCSet [1; 2; 3; 4; 5] 4 10 compare_ints (Some cleanup_int)
         (Some print_int).
Definition clean_b : CSet world Z :=
  mkCSet [4; 5; 6; 7; 8] 4 10 compare_ints (Some cleanup_int)
         (Some print_int).
Definition clean_sets : state world Z :=
  mkState (<[2%positive := clean_b]> (<[1%positive := clean_a]> ∅)) [].

(** [outer_set], allocated beside the heap of the sets it points to. *)
Definition outer_state : state (state world Z) pointer :=
  mkState (<[1%positive := outer_set]> ∅) inner_heap.

End ExtraData.

(** Two sets of sets as operands of [cset_symmetricDifference]: [set_of_x]
    holds a pointer to the set {1,2}, [set_of_y] a pointer to the set
    {2,3}; both were created with the generic capability triple, as
    [set_test.c] creates its sets of sets. *)
Module NestedData.
Import IntClient ExtraData.

Definition set_of_x : CSet (state world Z) pointer :=
  mkCSet [Some 1%positive] 8 1 cset_compare (Some cset_cleanup)
         (Some cset_genericToString).
Definition set_of_y : CSet (state world Z) pointer :=
  mkCSet [Some 2%positive] 8 1 cset_compare (Some cset_cleanup)
         (Some cset_genericToString).
Definition nested_operands : state (state world Z) pointer :=
  mkState (<[2%positive := set_of_y]> (<[1%positive := set_of_x]> ∅))
          inner_heap.

(** [cset_compare] on the pointers stored in the operands. *)
Definition pointer_sign (p q : pointer) : Z :=
  match cset_compare inner_heap p q with Ret z => z | Fault _ => 0 end.

Definition allocated {W A : Type} (st : state W A) (a : addr) : bool :=
  match sets st !! a with Some _ => true | None => false end.

Definition fault_of {T : Type} (r : result T) : option fault :=
  match r with Ret _ => None | Fault f => Some f end.

(** The operands after [cset_symmetricDifference(set_of_x, set_of_y)]:
    the slots of both operands and of the result, whether the two inner
    sets are still allocated, the rendering of the first operand, and the
    outcome of [cset_delete] on the first operand. *)
Definition after_symmetricDifference
    : result (list pointer * list pointer * list pointer * bool * bool
              * result (option string) * option fault) :=
  r ← cset_symmetricDifference nested_operands (Some 1%positive)
        (Some 2%positive);
  a ← deref (fst r) (Some 1%positive);
  b ← deref (fst r) (Some 2%positive);
  u ← deref (fst r) (snd r);
  Ret (elements a, elements b, elements u,
       allocated (mem (fst r)) 1%positive,
       allocated (mem (fst r)) 2%positive,
       cset_toString (mem (fst r)) a,
       fault_of (cset_delete (fst r) (Some 1%positive))).

(** The same call on the int sets {1,..,5} and {4,..,8} of [clean_sets],
    whose cleanup callback records the slots it is handed: the slots of
    both operands and of the result, and the record of the callback. *)
Definition ints_after_symmetricDifference
    : result (list Z * list Z * list Z * world) :=
  r ← cset_symmetricDifference clean_sets (Some 1%positive)
        (Some 2%positive);
  a ← deref (fst r) (Some 1%positive);
  b ← deref (fst r) (Some 2%positive);
  u ← deref (fst r) (snd r);
  Ret (elements a, elements b, elements u, mem (fst r)).

End NestedData.

(** * The code at concrete inputs *)

Module Scenarios.
Import IntClient.

(** C1: on the one-element set {5}, [cset_add] of 5 does not return
    false: it returns true and stores a second 5, so the size grows from
    1 to 2.  (The halving loop is skipped for a size of 1 and the linear
    loop stops at the equal slot without reporting it.) *)
Theorem C1_add_of_present_value_stores_duplicate :
  (s ← build 10 None [5];
   r ← cset_add [] s 5;
   Ret (cset_size s, fst r, elements (snd r), cset_size (snd r)))
  = Ret (1, true, [5; 5], 2).
Proof. vm_compute. reflexivity. Qed.

(** C2: with a = {1,2,3} and b = {3}, [cset_intersect(a, b)] is empty
    although 3 is in both: the loop runs over the first
    min(|a|,|b|) slots of a, whichever operand is smaller.  The scenario
    of the specification, with operands of equal size, gives {4,5}. *)
Theorem C2_intersect_misses_common_element :
  binary_on [1; 2; 3] [3] cset_intersect = Ret []
  ∧ binary_on [3] [1; 2; 3] cset_intersect = Ret [3]
  ∧ binary_on [1; 2; 3; 4; 5] [4; 5; 6; 7; 8] cset_intersect = Ret [4; 5].
Proof. vm_compute. repeat split; reflexivity. Qed.

(** C4: on {1,2,3}, created with a cleanup capability, [cset_remove] of 2
    returns true and leaves {1,3}, but the cleanup callback is invoked on
    no slot; [cset_clear] on the same set invokes it on every slot. *)
Theorem C4_remove_does_not_invoke_cleanup :
  (s ← build 10 (Some cleanup_int) [1; 2; 3];
   r ← cset_remove [] s 2;
   Ret (fst (fst r), elements (snd (fst r)), snd r))
  = Ret (true, [1; 3], [])
  ∧ (s ← build 10 (Some cleanup_int) [1; 2; 3];
     r ← cset_clear [] s;
     Ret (snd r))
    = Ret [1; 2; 3].
Proof. vm_compute. split; reflexivity. Qed.

(** C5: after adding 10, 20, ..., 70 and then 5 to a new set, the stored
    elements are 10, 20, 5, 30, ...: slots 1 and 2 hold 20 and 5, and
    compare(20, 5) is positive. *)
Theorem C5_add_breaks_sorted_order :
  (s ← build 10 None [10; 20; 30; 40; 50; 60; 70; 5];
   c ← compare_ints [] 20 5;
   Ret (elements s, c))
  = Ret ([10; 20; 5; 30; 40; 50; 60; 70], 15).
Proof. vm_compute. reflexivity. Qed.

(** C6: after adding 5 twice to a new set and removing 5 once,
    [cset_contains] of 5 is still true; and after adding 10, 20, ..., 150
    and then 5, [cset_contains] of 5 is false. *)
Theorem C6_contains_after_add_and_remove :
  (s ← build 10 None [5; 5];
   r ← cset_remove [] s 5;
   c ← cset_contains [] (snd (fst r)) 5;
   Ret (fst (fst r), c))
  = Ret (true, true)
  ∧ (s ← build 10 None [10; 20; 30; 40; 50; 60; 70; 80; 90; 100; 110;
                         120; 130; 140; 150];
     r ← cset_add [] s 5;
     c ← cset_contains [] (snd r) 5;
     Ret (fst r, elements (snd r), c))
    = Ret (true,
           [10; 20; 30; 5; 40; 50; 60; 70; 80; 90; 100; 110; 120; 130;
            140; 150],
           false).
Proof. vm_compute. split; reflexivity. Qed.

End Scenarios.

Module SharedSlots.
Import IntClient ExtraData NestedData.

(** C9: [cset_symmetricDifference] does not leave its operands as they
    were.  On the sets of sets {x} and {y}, with x = {1,2} and y = {2,3},
    the first operand renders as [{{1, 2}}] before the call.  The call
    returns {x, y} and both operands still hold their pointer, but
    deleting the two intermediate differences has run [cset_cleanup] on
    these pointers: x and y are freed, rendering the first operand
    dereferences a freed set, and so does deleting it.  On the int sets
    {1,..,5} and {4,..,8} the operands' cleanup callback has been invoked
    on 1, 2, 3, 6, 7, 8, which the operands still hold. *)
Theorem C9_symmetricDifference_cleans_slots_of_operands :
  cset_toString (mem nested_operands) set_of_x = Ret (Some "{{1, 2}}")
  ∧ after_symmetricDifference
    = Ret ([Some 1%positive], [Some 2%positive],
           [Some 1%positive; Some 2%positive], false, false,
           Fault BadDeref, Some BadDeref)
  ∧ ints_after_symmetricDifference
    = Ret ([1; 2; 3; 4; 5], [4; 5; 6; 7; 8], [1; 2; 3; 6; 7; 8],
           [1; 2; 3; 6; 7; 8]).
Proof. vm_compute. repeat split; reflexivity. Qed.

End SharedSlots.

(** * Missing operands and the comparison of empty sets *)

Section NullAndCompare.

Context {W A : Type}.
Implicit Types (st : state W A) (p : pointer).

Lemma cset_difference_null_l st p : cset_difference st None p = Ret (st, None).
Proof. reflexivity. Qed.

Lemma cset_difference_null_r st p : cset_difference st p None = Ret (st, None).
Proof. unfold cset_difference. by destruct p. Qed.

(** C3: [cset_union], [cset_intersect] and [cset_difference] return NULL
    and leave the state alone when an operand is NULL, whereas
    [cset_symmetricDifference] faults on a null dereference: both
    differences and their union are NULL, and [cset_delete] is then
    called on NULL. *)
Theorem C3_symmetricDifference_null_operand_faults st p :
  cset_union st None p = Ret (st, None)
  ∧ cset_union st p None = Ret (st, None)
  ∧ cset_intersect st None p = Ret (st, None)
  ∧ cset_intersect st p None = Ret (st, None)
  ∧ cset_difference st None p = Ret (st, None)
  ∧ cset_difference st p None = Ret (st, None)
  ∧ cset_symmetricDifference st None p = Fault NullDeref
  ∧ cset_symmetricDifference st p None = Fault NullDeref.
Proof.
  repeat split; try reflexivity;
    try (unfold cset_union, cset_intersect, cset_difference;
         by destruct p).
Qed.

(** C10: two distinct sets that both hold no element and have the same
    element size compare equal, whatever their capacities and their
    compare, cleanup and stringify capabilities are. *)
Theorem C10_distinct_empty_sets_compare_equal st p1 p2 s1 s2 :
  p1 ≠ p2 →
  deref st p1 = Ret s1 →
  deref st p2 = Ret s2 →
  n_elements s1 = 0 →
  n_elements s2 = 0 →
  elemsz s1 = elemsz s2 →
  cset_compare st p1 p2 = Ret 0.
Proof.
  intros Hne H1 H2 Hn1 Hn2 Hsz. unfold cset_compare.
  rewrite bool_decide_eq_false_2 by done.
  rewrite H1, H2. simpl.
  rewrite bool_decide_eq_false_2 by (rewrite Hn1, Hn2; tauto).
  rewrite bool_decide_eq_false_2 by tauto.
  unfold n_elements in Hn1.
  destruct (elements s1); [reflexivity | simpl in Hn1; lia].
Qed.

End NullAndCompare.

Module CompareWitness.
Import IntClient CompareData.

Lemma C10_witness :
  cset_compare two_empty (Some 1%positive) (Some 2%positive) = Ret 0.
Proof.
  apply (C10_distinct_empty_sets_compare_equal two_empty
           (Some 1%positive) (Some 2%positive) left_set right_set).
  - discriminate.
  - reflexivity.
  - reflexivity.
  - reflexivity.
  - reflexivity.
  - reflexivity.
Defined.

End CompareWitness.
(** * The search of [cset_add] *)

Section AddSearch.

Context {W A : Type}.
Implicit Types (set : CSet W A) (w : W) (elem : A).

Lemma bind_Ret {T U : Type} (m : result T) (k : T → result U) (x : T) :
  m = Ret x → (m ≫= k) = k x.
Proof. by intros ->. Qed.

Lemma n_elements_nonneg set : 0 ≤ n_elements set.
Proof. unfold n_elements. lia. Qed.

Lemma nth_live set (i : Z) :
  0 ≤ i < n_elements set →
  ∃ y, elements set !! Z.to_nat i = Some y ∧ nth set i = Ret y.
Proof.
  intros Hi. unfold nth.
  destruct (lookup_lt_is_Some_2 (elements set) (Z.to_nat i)) as [y Hy].
  { unfold n_elements in Hi. lia. }
  exists y. split; [done|].
  rewrite Hy.
  replace (0 <=? i) with true by (symmetry; apply Z.leb_le; lia).
  replace (i <? n_elements set) with true by (symmetry; apply Z.ltb_lt; lia).
  reflexivity.
Qed.

Lemma add_search_spec w set elem (fuel : nat) :
  answers w set elem →
  ∀ partial_sz index,
    0 ≤ partial_sz ≤ Z.of_nat fuel →
    partial_sz ÷ 2 ≤ index →
    index + (partial_sz + 1) ÷ 2 ≤ n_elements set →
    ∃ r, add_search fuel w set elem partial_sz index = Ret r
         ∧ match r with
           | None => ∃ y, y ∈ elements set ∧ cmp_fn set w elem y = Ret 0
           | Some i => 0 ≤ i ≤ n_elements set
           end.
Proof.
  intros Hans. induction fuel as [|fuel IH]; intros p i Hp Hlo Hhi.
  - simpl. rewrite Z.gtb_ltb.
    replace (1 <? p) with false by (symmetry; apply Z.ltb_ge; lia).
    exists (Some i). split; [done|].
    rewrite Z.quot_div_nonneg in Hlo, Hhi by lia.
    Z.div_mod_to_equations. lia.
  - simpl. rewrite Z.gtb_ltb. destruct (1 <? p) eqn:Hgt.
    + apply Z.ltb_lt in Hgt.
      rewrite !Z.quot_div_nonneg in Hlo, Hhi by lia.
      destruct (nth_live set i) as (y & Hy & ->).
      { Z.div_mod_to_equations. lia. }
      simpl. destruct (Hans y) as [z Hz].
      { by eapply list_elem_of_lookup_2. }
      rewrite Hz. simpl.
      destruct (z =? 0) eqn:Hz0.
      { exists None. split; [done|]. exists y. apply Z.eqb_eq in Hz0. subst z.
        split; [by eapply list_elem_of_lookup_2 | done]. }
      assert (0 ≤ p ÷ 2 ≤ Z.of_nat fuel) as Hp'.
      { rewrite Z.quot_div_nonneg by lia. Z.div_mod_to_equations. lia. }
      destruct (z >? 0); apply IH; try done;
        rewrite ?Z.quot_div_nonneg in * by lia;
        rewrite ?Z.quot_div_nonneg by (Z.div_mod_to_equations; lia);
        Z.div_mod_to_equations; lia.
    + exists (Some i). split; [done|].
      apply Z.ltb_ge in Hgt.
      rewrite Z.quot_div_nonneg in Hlo, Hhi by lia.
      Z.div_mod_to_equations. lia.
Qed.

Lemma add_scan_spec w set elem (fuel : nat) :
  answers w set elem →
  ∀ index,
    0 ≤ index ≤ n_elements set →
    n_elements set - index ≤ Z.of_nat fuel →
    ∃ j, add_scan fuel w set elem index = Ret j
         ∧ index ≤ j ≤ n_elements set
         ∧ (j < n_elements set →
            ∃ y z, elements set !! Z.to_nat j = Some y
                   ∧ cmp_fn set w elem y = Ret z ∧ z ≤ 0).
Proof.
  intros Hans. induction fuel as [|fuel IH]; intros i Hi Hfuel.
  - simpl. replace (i <? n_elements set) with false
      by (symmetry; apply Z.ltb_ge; lia).
    exists i. repeat split; lia.
  - simpl. destruct (i <? n_elements set) eqn:Hlt.
    + apply Z.ltb_lt in Hlt.
      destruct (nth_live set i) as (y & Hy & ->); [lia|].
      simpl. destruct (Hans y) as [z Hz].
      { by eapply list_elem_of_lookup_2. }
      rewrite Hz. simpl.
      destruct (z >? 0) eqn:Hz0.
      * destruct (IH (i + 1)) as (j & -> & Hj & Hstop); [lia | lia |].
        exists j. repeat split; try lia. done.
      * exists i. repeat split; try lia.
        intros _. exists y, z. repeat split; try done.
        rewrite Z.gtb_ltb in Hz0. apply Z.ltb_ge in Hz0. lia.
    + exists i. apply Z.ltb_ge in Hlt. repeat split; lia.
Qed.

(** What [cset_add] does when the comparator answers on every slot. *)
Lemma cset_add_spec w set elem :
  answers w set elem →
  (cset_add w set elem = Ret (false, set)
   ∧ ∃ y, y ∈ elements set ∧ cmp_fn set w elem y = Ret 0)
  ∨ ∃ j : nat,
      (j ≤ length (elements set))%nat
      ∧ cset_add w set elem
        = Ret (true, with_elements (check_resize set)
                       (take j (elements set) ++
                        elem :: drop j (elements set)))
      ∧ ((j < length (elements set))%nat →
         ∃ y z, elements set !! j = Some y
                ∧ cmp_fn set w elem y = Ret z ∧ z ≤ 0).
Proof.
  intros Hans. unfold cset_add.
  pose proof (n_elements_nonneg set) as Hn.
  destruct (add_search_spec w set elem (Z.to_nat (n_elements set)) Hans
              (n_elements set) (n_elements set ÷ 2))
    as (r & -> & Hr).
  { lia. }
  { lia. }
  { rewrite !Z.quot_div_nonneg by lia. Z.div_mod_to_equations. lia. }
  cbn [mbind result_bind]. destruct r as [i|]; [|by left].
  right.
  destruct (add_scan_spec w set elem (S (Z.to_nat (n_elements set))) Hans
              (if i =? 1 then 0 else i))
    as (j & -> & Hj & Hstop).
  { destruct (i =? 1); lia. }
  { destruct (i =? 1); lia. }
  cbn [mbind result_bind]. exists (Z.to_nat j).
  assert (0 ≤ j) by (destruct (i =? 1); lia).
  split; [unfold n_elements in Hj; lia|].
  split.
  - unfold insert.
    replace (n_elements (check_resize set)) with (n_elements set)
      by (unfold check_resize; by destruct (_ >=? _)).
    replace (0 <=? j) with true by (symmetry; apply Z.leb_le; lia).
    replace (j <=? n_elements set) with true
      by (symmetry; apply Z.leb_le; lia).
    simpl.
    replace (elements (check_resize set)) with (elements set)
      by (unfold check_resize; by destruct (_ >=? _)).
    reflexivity.
  - intros Hlt. apply Hstop. unfold n_elements. lia.
Qed.

End AddSearch.

(** * Sets that share their capabilities *)

Section Frame.

Context {W A : Type}.
Implicit Types (set s u : CSet W A) (w : W) (st : state W A) (a d : addr).

Lemma same_caps_refl u : same_caps u u.
Proof. by repeat split. Qed.

Lemma same_caps_trans u1 u2 u3 :
  same_caps u1 u2 → same_caps u2 u3 → same_caps u1 u3.
Proof.
  intros (?&?&?&?) (?&?&?&?). repeat split; congruence.
Qed.

Lemma same_caps_add u l :
  same_caps u (with_elements (check_resize u) l).
Proof.
  unfold check_resize. by destruct (_ >=? _).
Qed.

End Frame.

Section Algebra.

Context {W A : Type}.
Implicit Types (set s u : CSet W A) (w : W) (st : state W A) (a d : addr).

Lemma malloc_fresh st : sets st !! malloc st = None.
Proof. apply not_elem_of_dom. unfold malloc. apply is_fresh. Qed.

Lemma size_of_filling (h : gmap addr (CSet W A)) w d a s u :
  h !! a = Some s → h !! d = None →
  size_of (Some a) (filling h w d u) = Ret (n_elements s).
Proof.
  intros Ha Hd. unfold size_of. simpl.
  rewrite lookup_insert_ne by (intros ->; congruence). by rewrite Ha.
Qed.

End Algebra.

(** * Rendering *)

Section ToString.

Context {W A : Type}.

Lemma string_app_cons (c : Ascii.ascii) (s t : string) :
  String c s +:+ t = String c (s +:+ t).
Proof. reflexivity. Qed.

Lemma string_app_assoc (s t v : string) :
  (s +:+ t) +:+ v = s +:+ (t +:+ v).
Proof.
  induction s as [|c s IH]; [reflexivity|].
  rewrite !string_app_cons. by rewrite IH.
Qed.

Lemma string_app_length (s t : string) :
  String.length (s +:+ t) = (String.length s + String.length t)%nat.
Proof.
  induction s as [|c s IH]; [reflexivity|].
  rewrite string_app_cons. simpl. by rewrite IH.
Qed.

Lemma string_app_empty_r (s : string) : s +:+ "" = s.
Proof.
  induction s as [|c s IH]; [reflexivity|].
  rewrite string_app_cons. by rewrite IH.
Qed.

Lemma strcat_fits (set_str s : string) :
  Z.of_nat (String.length set_str + String.length s) < SET_STR_MAX_LEN →
  strcat set_str s = Ret (set_str +:+ s).
Proof.
  intros H. unfold strcat.
  by replace (_ <? _) with true by (symmetry; by apply Z.ltb_lt).
Qed.

Lemma toString_loop_spec (f : ToStringFn W A) (g : A → string) (w : W)
    (n : Z) (l : list A) :
  (∀ x, x ∈ l → f w x = Ret (Some (g x))) →
  ∀ (i : Z) (set_str : string),
    n = i + Z.of_nat (length l) →
    Z.of_nat (String.length set_str
              + String.length (join_with ", " (g <$> l)))
      < SET_STR_MAX_LEN →
    toString_loop f w n l i set_str
    = Ret (set_str +:+ join_with ", " (g <$> l)).
Proof.
  induction l as [|x l IH]; intros Hf i set_str Hn Hlen.
  - simpl. by rewrite string_app_empty_r.
  - cbn [toString_loop]. rewrite Hf by left.
    cbn [mbind result_bind].
    destruct l as [|y l].
    + simpl in *. rewrite strcat_fits by done. cbn [mbind result_bind].
      rewrite bool_decide_eq_false_2 by lia. reflexivity.
    + change (join_with ", " (g <$> x :: y :: l))
        with (g x +:+ ", " +:+ join_with ", " (g <$> y :: l)) in *.
      rewrite !string_app_length in Hlen.
      rewrite strcat_fits by lia. cbn [mbind result_bind].
      rewrite bool_decide_eq_true_2 by (simpl in Hn; lia).
      rewrite strcat_fits by (rewrite string_app_length; lia).
      cbn [mbind result_bind].
      rewrite IH.
      * by rewrite !string_app_assoc.
      * intros z Hz. apply Hf. by right.
      * simpl in *. lia.
      * rewrite !string_app_length. lia.
Qed.

(** C8 (as amended): without a stringify capability [cset_toString]
    returns NULL; with one that returns a string for every stored slot,
    and when the text is shorter than the 2000 characters of the local
    buffer, it returns the text made of an opening brace, the stringify
    outputs of the slots in storage order (index 0 to n-1) separated by a
    comma and a space, and a closing brace. *)
Theorem C8_toString_renders_slots_in_storage_order (w : W) (set : CSet W A) :
  (toString_fn set = None → cset_toString w set = Ret None)
  ∧ ∀ (f : ToStringFn W A) (g : A → string),
      toString_fn set = Some f →
      (∀ x, x ∈ elements set → f w x = Ret (Some (g x))) →
      Z.of_nat (String.length (rendering (g <$> elements set)))
        < SET_STR_MAX_LEN →
      cset_toString w set = Ret (Some (rendering (g <$> elements set))).
Proof.
  unfold cset_toString. split.
  - by intros ->.
  - intros f g -> Hf Hlen. unfold rendering in *.
    rewrite !string_app_length in Hlen.
    rewrite (toString_loop_spec f g); try done; [|simpl in *; lia].
    cbn [mbind result_bind].
    rewrite strcat_fits by (rewrite !string_app_length; lia).
    cbn [mbind result_bind]. by rewrite string_app_assoc.
Qed.

End ToString.

Module RenderingWitness.
Import IntClient RenderingData.

Lemma C8_witness :
  cset_toString [] scenario_set = Ret (Some "{1, 2, 3, 5, 6, 12, 15}").
Proof.
  etrans.
  - apply (proj2 (C8_toString_renders_slots_in_storage_order [] scenario_set)
             print_int pretty).
    + reflexivity.
    + intros x _. reflexivity.
    + vm_compute. reflexivity.
  - vm_compute. reflexivity.
Defined.

(** C8, as stated, fails on a set whose text does not fit the buffer:
    for the 200 ten-digit elements 1000000000 .. 1000000199 the text has
    2400 characters and [strcat] writes past [set_str]. *)
Lemma C8_counterexample :
  (s ← build 0 None long_values; cset_toString [] s) = Fault BufferOverflow.
Proof. vm_compute. reflexivity. Qed.

End RenderingWitness.

(** * Ordered lists, chosen slots and the binary search *)

Section Ordered.

Context {W A : Type}.
Implicit Types (c : A → A → Z) (l : list A).

Lemma ordered_lookup c l (i j : nat) (x y : A) :
  ordered c l → l !! i = Some x → l !! j = Some y →
  ((i < j)%nat → c x y < 0 ∧ 0 < c y x) ∧ (i = j → c x y = 0).
Proof.
  revert i j. induction l as [|a l IH]; intros i j Hord Hi Hj; [done|].
  destruct Hord as (Hrefl & Hall & Hord).
  destruct i as [|i], j as [|j]; simpl in *; simplify_eq.
  - split; [lia | done].
  - split; [|done]. intros _.
    rewrite Forall_forall in Hall. apply Hall.
    by eapply list_elem_of_lookup_2.
  - split; [lia | done].
  - destruct (IH i j Hord Hi Hj) as [Hlt Heq].
    split; [intros; apply Hlt; lia | intros; apply Heq; lia].
Qed.

Lemma pick_elem_of (bv i : Z) l x : x ∈ pick bv i l → x ∈ l.
Proof.
  revert i. induction l as [|a l IH]; intros i; simpl; [done|].
  destruct (Z.testbit bv i).
  - intros [->|H]%elem_of_cons; [left | right; by eapply IH].
  - intros H. right. by eapply IH.
Qed.

Lemma pick_snoc (bv i : Z) l x :
  pick bv i (l ++ [x])
  = pick bv i l ++
    (if Z.testbit bv (i + Z.of_nat (length l)) then [x] else []).
Proof.
  revert i. induction l as [|a l IH]; intros i; simpl.
  - rewrite Z.add_0_r. by destruct (Z.testbit bv i).
  - rewrite IH.
    replace (i + 1 + Z.of_nat (length l)) with (i + Z.pos (Pos.of_succ_nat (length l)))
      by lia.
    by destruct (Z.testbit bv i).
Qed.

Lemma pick_zero (i : Z) l : pick 0 i l = [].
Proof.
  revert i. induction l as [|a l IH]; intros i; simpl; [done|].
  by rewrite Z.bits_0.
Qed.

(** [bsearch] finds the slot of an ordered list that is searched for. *)
Lemma bsearch_finds (w : W) (cmp : CompareFn W A) c l (k : nat) (x : A) :
  ordered c l →
  (∀ y, y ∈ l → cmp w x y = Ret (c x y)) →
  l !! k = Some x →
  ∀ (fuel : nat) (lo hi : Z),
    0 ≤ lo ≤ Z.of_nat k → Z.of_nat k < hi ≤ Z.of_nat (length l) →
    hi - lo ≤ Z.of_nat fuel →
    bsearch fuel w cmp x l lo hi = Ret (Some (Z.of_nat k)).
Proof.
  intros Hord Hcmp Hk.
  induction fuel as [|fuel IH]; intros lo hi Hlo Hhi Hfuel; [lia|].
  simpl. replace (lo <? hi) with true by (symmetry; apply Z.ltb_lt; lia).
  rewrite Z.quot_div_nonneg by lia.
  assert (lo ≤ (lo + hi) / 2 < hi) as Hmid
    by (Z.div_mod_to_equations; lia).
  set (idx := (lo + hi) / 2) in *.
  destruct (lookup_lt_is_Some_2 l (Z.to_nat idx)) as [p Hp]; [lia|].
  rewrite Hp, Hcmp by (by eapply list_elem_of_lookup_2).
  cbn [mbind result_bind].
  destruct (ordered_lookup c l k (Z.to_nat idx) x p Hord Hk Hp)
    as [Hlt Heq].
  destruct (ordered_lookup c l (Z.to_nat idx) k p x Hord Hp Hk)
    as [Hgt _].
  destruct (Z.lt_trichotomy (Z.of_nat k) idx) as [Hc|[Hc|Hc]].
  - destruct Hlt as [Hlt _]; [lia|].
    replace (c x p <? 0) with true by (symmetry; apply Z.ltb_lt; lia).
    apply IH; lia.
  - rewrite Heq by lia. simpl. f_equal. f_equal. lia.
  - destruct Hgt as [_ Hgt]; [lia|].
    replace (c x p <? 0) with false by (symmetry; apply Z.ltb_ge; lia).
    rewrite Z.gtb_ltb.
    replace (0 <? c x p) with true by (symmetry; apply Z.ltb_lt; lia).
    apply IH; lia.
Qed.

Lemma cset_contains_ordered (w : W) (s : CSet W A) c (x : A) :
  ordered c (elements s) →
  (∀ y, y ∈ elements s → cmp_fn s w x y = Ret (c x y)) →
  x ∈ elements s →
  cset_contains w s x = Ret true.
Proof.
  intros Hord Hcmp [k Hk]%list_elem_of_lookup_1.
  unfold cset_contains, cset_bsearch.
  pose proof (lookup_lt_Some _ _ _ Hk).
  rewrite (bsearch_finds w (cmp_fn s) c (elements s) k x);
    unfold n_elements; try done; lia.
Qed.

End Ordered.

(** * The subsets generated by [cset_powerSet] *)

Section Subsets.

Context {W A : Type}.
Implicit Types (st : state W A) (u : CSet W A) (q : addr) (bv : Z).

Lemma bit_test (bv i : Z) :
  0 ≤ i → negb (Z.land (Z.shiftr bv i) 1 =? 0) = Z.testbit bv i.
Proof.
  intros Hi.
  replace (Z.land (Z.shiftr bv i) 1) with (Z.shiftr bv i mod 2).
  2:{ change 2 with (2 ^ 1). rewrite <- Z.land_ones by lia. reflexivity. }
  rewrite <- Z.bit0_mod, Z.shiftr_spec by lia.
  rewrite Z.add_0_l. by destruct (Z.testbit bv i).
Qed.

Lemma store_same st q u : sets st !! q = Some u → store st q u = st.
Proof.
  intros H. destruct st as [h w]. unfold store. simpl in *.
  by rewrite insert_id.
Qed.

Lemma store_store st q u u' : store (store st q u) q u' = store st q u'.
Proof. unfold store. simpl. by rewrite insert_insert_eq. Qed.

(** The comparison loop on the slots chosen by two bit vectors: it
    returns, and returns 0 only when the bit vectors agree on the bits
    that choose. *)
Lemma compare_loop_pick (w : W) (cmp : CompareFn W A) (c : A → A → Z)
    (l : list A) :
  ordered c l →
  (∀ x y, x ∈ l → y ∈ l → cmp w x y = Ret (c x y)) →
  ∀ (i bv1 bv2 : Z),
    length (pick bv1 i l) = length (pick bv2 i l) →
    ∃ z, compare_loop cmp w (pick bv1 i l) (pick bv2 i l) = Ret z
         ∧ (z = 0 →
            ∀ k, i ≤ k < i + Z.of_nat (length l) →
                 Z.testbit bv1 k = Z.testbit bv2 k).
Proof.
  induction l as [|a l IH]; intros Hord Hcmp i bv1 bv2 Hlen.
  - simpl. exists 0. split; [done|]. intros _ k Hk. simpl in Hk. lia.
  - destruct Hord as (Hrefl & Hall & Hord).
    rewrite Forall_forall in Hall.
    assert (∀ x y, x ∈ l → y ∈ l → cmp w x y = Ret (c x y)) as Hcmp'
      by (intros; apply Hcmp; by right).
    simpl in *.
    destruct (Z.testbit bv1 i) eqn:Hb1, (Z.testbit bv2 i) eqn:Hb2.
    + simpl in Hlen. injection Hlen as Hlen.
      simpl. rewrite Hcmp by left. rewrite Hrefl.
      cbn [mbind result_bind]. rewrite bool_decide_eq_false_2 by lia.
      destruct (IH Hord Hcmp' (i + 1) bv1 bv2 Hlen) as (z & -> & Hz).
      exists z. split; [done|]. intros Hz0 k Hk.
      destruct (decide (k = i)) as [->|]; [congruence|].
      apply Hz; [done | lia].
    + destruct (pick bv2 (i + 1) l) as [|y p2] eqn:Hp2; [done|].
      assert (y ∈ l) as Hy.
      { eapply pick_elem_of. rewrite Hp2. left. }
      simpl. rewrite Hcmp by (by constructor).
      cbn [mbind result_bind].
      destruct (Hall y Hy) as [Hlt _].
      rewrite bool_decide_eq_true_2 by lia.
      exists (c a y). split; [done | lia].
    + destruct (pick bv1 (i + 1) l) as [|y p1] eqn:Hp1; [done|].
      assert (y ∈ l) as Hy.
      { eapply pick_elem_of. rewrite Hp1. left. }
      simpl. rewrite Hcmp by (by constructor).
      cbn [mbind result_bind].
      destruct (Hall y Hy) as [_ Hgt].
      rewrite bool_decide_eq_true_2 by lia.
      exists (c y a). split; [done | lia].
    + destruct (IH Hord Hcmp' (i + 1) bv1 bv2 Hlen) as (z & -> & Hz).
      exists z. split; [done|]. intros Hz0 k Hk.
      destruct (decide (k = i)) as [->|]; [congruence|].
      apply Hz; [done | lia].
Qed.

Lemma bits_below_inj (n bv1 bv2 : Z) :
  0 ≤ n → 0 ≤ bv1 < 2 ^ n → 0 ≤ bv2 < 2 ^ n →
  (∀ k, 0 ≤ k < n → Z.testbit bv1 k = Z.testbit bv2 k) →
  bv1 = bv2.
Proof.
  intros Hn H1 H2 Hbits. apply Z.bits_inj'. intros k Hk.
  destruct (Z.lt_ge_cases k n) as [Hlt|Hge]; [apply Hbits; lia|].
  rewrite <- (Z.mod_small bv1 (2 ^ n)), <- (Z.mod_small bv2 (2 ^ n)) by lia.
  by rewrite !Z.mod_pow2_bits_high by lia.
Qed.

Section Source.

Variables (a : addr) (s : CSet W A) (w : W) (c : A → A → Z).
Hypothesis Hord : ordered c (elements s).
Hypothesis Hcmp :
  ∀ x y, x ∈ elements s → y ∈ elements s → cmp_fn s w x y = Ret (c x y).

(** Adding a slot of [s] to a set that holds earlier slots of [s] appends
    it. *)
Lemma cset_add_later_slot u (i : nat) (x : A) bv :
  same_caps s u →
  elements s !! i = Some x →
  elements u = pick bv 0 (take i (elements s)) →
  ∃ u', cset_add w u x = Ret (true, u')
        ∧ same_caps s u' ∧ elements u' = elements u ++ [x].
Proof using Hord Hcmp.
  intros Hu Hx Hels.
  assert (∀ y, y ∈ elements u →
               y ∈ elements s ∧ cmp_fn u w x y = Ret (c x y) ∧ 0 < c x y)
    as Hbelow.
  { intros y Hy. rewrite Hels in Hy. apply pick_elem_of in Hy.
    apply list_elem_of_lookup_1 in Hy as [k Hk].
    apply lookup_take_Some in Hk as [Hk Hki].
    assert (y ∈ elements s) by (by eapply list_elem_of_lookup_2).
    assert (x ∈ elements s) by (by eapply list_elem_of_lookup_2).
    split; [done|]. destruct Hu as (_ & -> & _).
    split; [by apply Hcmp|].
    destruct (ordered_lookup c (elements s) k i y x Hord Hk Hx) as [Hlt _].
    by apply Hlt. }
  destruct (cset_add_spec w u x) as [[_ (y & Hy & Hy0)]|(j & Hj & -> & Hstop)].
  - intros y Hy. destruct (Hbelow y Hy) as (_ & -> & _). eauto.
  - destruct (Hbelow y Hy) as (_ & Hy1 & Hy2). rewrite Hy1 in Hy0.
    injection Hy0 as Hy0. lia.
  - eexists. split; [done|]. split.
    { eapply same_caps_trans; [done | apply same_caps_add]. }
    simpl.
    destruct (decide (j < length (elements u))%nat) as [Hlt|Hge].
    + destruct (Hstop Hlt) as (y & z & Hy & Hz & Hz0).
      destruct (Hbelow y) as (_ & Hy1 & Hy2).
      { by eapply list_elem_of_lookup_2. }
      rewrite Hy1 in Hz. injection Hz as <-. lia.
    + by rewrite take_ge, drop_ge by lia.
Qed.

Lemma subset_loop_spec q bv :
  q ≠ a →
  ∀ (fuel i : nat) st u,
    sets st !! a = Some s → mem st = w →
    sets st !! q = Some u → same_caps s u →
    elements u = pick bv 0 (take i (elements s)) →
    (i ≤ length (elements s))%nat →
    (length (elements s) - i ≤ fuel)%nat →
    ∃ u', subset_loop fuel st (Some a) (Some q) bv (n_elements s)
                      (Z.of_nat i)
          = Ret (store st q u')
          ∧ same_caps s u' ∧ elements u' = pick bv 0 (elements s).
Proof using Hord Hcmp.
  intros Hqa. induction fuel as [|fuel IH];
    intros i st u Ha Hw Hq Hu Hels Hi Hfuel.
  - simpl. unfold n_elements.
    replace (_ <? _) with false by (symmetry; apply Z.ltb_ge; lia).
    exists u. rewrite store_same by done. split; [done|]. split; [done|].
    by rewrite Hels, take_ge by lia.
  - simpl. unfold n_elements at 1.
    destruct (Z.of_nat i <? Z.of_nat (length (elements s))) eqn:Hlt.
    + apply Z.ltb_lt in Hlt.
      destruct (lookup_lt_is_Some_2 (elements s) i) as [x Hx]; [lia|].
      assert (pick bv 0 (take (S i) (elements s))
              = elements u ++ (if Z.testbit bv (Z.of_nat i) then [x] else []))
        as Hnext.
      { rewrite (take_S_r _ _ x) by done. rewrite pick_snoc, <- Hels.
        rewrite length_take.
        by replace (0 + Z.of_nat (i `min` length (elements s)))
          with (Z.of_nat i) by lia. }
      rewrite bit_test by lia.
      destruct (Z.testbit bv (Z.of_nat i)).
      * simpl deref. rewrite Ha. cbn [mbind result_bind].
        destruct (nth_live s (Z.of_nat i)) as (x' & Hx' & ->).
        { unfold n_elements. lia. }
        rewrite Nat2Z.id, Hx in Hx'. injection Hx' as <-.
        cbn [mbind result_bind]. unfold cset_add_at. simpl deref.
        rewrite Hq. cbn [mbind result_bind]. rewrite Hw.
        destruct (cset_add_later_slot u i x bv Hu Hx Hels)
          as (u1 & -> & Hu1 & Hels1).
        cbn [mbind result_bind snd].
        replace (Z.of_nat i + 1) with (Z.of_nat (S i)) by lia.
        destruct (IH (S i) (store st q u1) u1) as (u' & -> & Hu' & Hels');
          try done.
        -- simpl. by rewrite lookup_insert_ne.
        -- simpl. by rewrite lookup_insert_eq.
        -- by rewrite Hels1.
        -- lia.
        -- lia.
        -- exists u'. by rewrite store_store.
      * cbn [mbind result_bind].
        replace (Z.of_nat i + 1) with (Z.of_nat (S i)) by lia.
        apply (IH (S i) st u); try done.
        -- by rewrite Hnext, app_nil_r.
        -- lia.
        -- lia.
    + apply Z.ltb_ge in Hlt.
      exists u. rewrite store_same by done. split; [done|]. split; [done|].
      by rewrite Hels, take_ge by lia.
Qed.

End Source.

End Subsets.

(** * The power set *)

Section PowerSet.

Context {W A : Type}.
Implicit Types (st : state W A) (u : CSet W A) (q : addr) (bv : Z).

Variables (a : addr) (s : CSet W A) (w : W) (c : A → A → Z).
Hypothesis Hord : ordered c (elements s).
Hypothesis Hcmp :
  ∀ x y, x ∈ elements s → y ∈ elements s → cmp_fn s w x y = Ret (c x y).

Lemma subset_at_store st p bv q u :
  sets st !! q = None →
  subset_at st a s p bv → subset_at (store st q u) a s p bv.
Proof using Type.
  intros Hq (q' & u' & -> & Hne & Hq' & Hu' & Hels).
  exists q', u'. split; [done|]. split; [done|]. split; [|done].
  simpl. rewrite lookup_insert_ne; [done | intros ->; congruence].
Qed.

Lemma cset_compare_subsets st q1 q2 bv1 bv2 :
  mem st = w →
  subset_at st a s (Some q1) bv1 → subset_at st a s (Some q2) bv2 →
  q1 ≠ q2 →
  0 ≤ bv1 < 2 ^ n_elements s → 0 ≤ bv2 < 2 ^ n_elements s →
  bv1 ≠ bv2 →
  ∃ z, cset_compare st (Some q1) (Some q2) = Ret z ∧ z ≠ 0.
Proof using Hord Hcmp.
  intros Hw (? & u1 & [= <-] & _ & Hq1 & Hu1 & Hels1)
         (? & u2 & [= <-] & _ & Hq2 & Hu2 & Hels2) Hne Hb1 Hb2 Hbv.
  unfold cset_compare.
  rewrite bool_decide_eq_false_2 by congruence.
  simpl deref. rewrite Hq1, Hq2. cbn [mbind result_bind].
  case_bool_decide as Hn.
  { eexists. split; [done | lia]. }
  destruct Hu1 as (Hsz1 & Hc1 & _), Hu2 as (Hsz2 & _).
  rewrite bool_decide_eq_false_2 by (intros ?; congruence).
  rewrite Hc1, Hw, Hels1, Hels2.
  destruct (compare_loop_pick w (cmp_fn s) c (elements s) Hord Hcmp
              0 bv1 bv2) as (z & -> & Hz).
  { unfold n_elements in Hn. rewrite Hels1, Hels2 in Hn. lia. }
  exists z. split; [done|]. intros Hz0. apply Hbv.
  apply (bits_below_inj (n_elements s)); try done.
  { apply n_elements_nonneg. }
  intros k Hk. apply Hz; [done|]. unfold n_elements in Hk. lia.
Qed.

Lemma isSubsetOf_loop_true st q u :
  sets st !! a = Some s → mem st = w → sets st !! q = Some u →
  (∀ x, x ∈ elements u → x ∈ elements s) →
  ∀ (fuel i : nat),
    (length (elements u) - i ≤ fuel)%nat →
    isSubsetOf_loop fuel st (Some q) (Some a) (Z.of_nat i) = Ret true.
Proof using Hord Hcmp.
  intros Ha Hw Hq Hsub. induction fuel as [|fuel IH]; intros i Hfuel.
  - simpl. rewrite Hq. cbn [mbind result_bind]. unfold n_elements.
    by replace (_ <? _) with false by (symmetry; apply Z.ltb_ge; lia).
  - simpl. rewrite Hq. cbn [mbind result_bind].
    destruct (Z.of_nat i <? n_elements u) eqn:Hlt; [|done].
    apply Z.ltb_lt in Hlt.
    destruct (nth_live u (Z.of_nat i)) as (x & Hx & ->); [lia|].
    cbn [mbind result_bind]. unfold cset_contains_at. simpl deref.
    rewrite Ha. cbn [mbind result_bind]. rewrite Hw.
    assert (x ∈ elements s) as Hxs.
    { apply Hsub. by eapply list_elem_of_lookup_2. }
    rewrite (cset_contains_ordered w s c x); try done;
      [|intros; by apply Hcmp].
    cbn [mbind result_bind negb].
    replace (Z.of_nat i + 1) with (Z.of_nat (S i)) by lia.
    apply IH. lia.
Qed.

Lemma subset_at_isSubsetOf st p bv :
  sets st !! a = Some s → mem st = w →
  subset_at st a s p bv →
  ∃ sub, deref st p = Ret sub
         ∧ elements sub = pick bv 0 (elements s)
         ∧ cset_isSubsetOf st p (Some a) = Ret true.
Proof using Hord Hcmp.
  intros Ha Hw (q & u & -> & Hne & Hq & Hu & Hels).
  exists u. simpl deref. rewrite Hq. split; [done|]. split; [done|].
  unfold cset_isSubsetOf.
  rewrite decide_False by congruence.
  simpl deref. rewrite Hq. cbn [mbind result_bind].
  apply (isSubsetOf_loop_true st q u Ha Hw Hq) with (i := 0%nat); [|lia].
  intros x. rewrite Hels. apply pick_elem_of.
Qed.

End PowerSet.

Section PowerSetLoop.

Context {W A : Type}.
Implicit Types (st : state W A) (u : CSet W A) (q : addr) (bv : Z).

Lemma elem_of_inserted {T : Type} (l : list T) (j : nat) (x p : T) :
  p ∈ take j l ++ x :: drop j l ↔ p = x ∨ p ∈ l.
Proof.
  rewrite <- (take_drop j l) at 3.
  rewrite !elem_of_app, elem_of_cons. tauto.
Qed.

Lemma length_inserted {T : Type} (l : list T) (j : nat) (x : T) :
  (j ≤ length l)%nat →
  length (take j l ++ x :: drop j l) = S (length l).
Proof.
  intros Hj. rewrite length_app, length_take. simpl.
  rewrite length_drop. lia.
Qed.

Variables (a : addr) (s : CSet W A) (w : W) (c : A → A → Z).
Hypothesis Hord : ordered c (elements s).
Hypothesis Hcmp :
  ∀ x y, x ∈ elements s → y ∈ elements s → cmp_fn s w x y = Ret (c x y).

(** One more subset: the pointer [Some q] to the subset of bit vector [k]
    is stored in the outer set. *)
Lemma generated_add st ps k q u :
  generated a s w st ps k →
  0 ≤ k < 2 ^ n_elements s →
  sets st !! q = None →
  same_caps s u →
  elements u = pick k 0 (elements s) →
  ∃ ps', cset_add (store st q u) ps (Some q) = Ret (true, ps')
         ∧ generated a s w (store st q u) ps' (k + 1).
Proof using Hord Hcmp.
  intros (Ha & Hw & Hcps & Hn & Hall & Hempty) Hk Hq Hu Hels.
  assert (q ≠ a) as Hqa by (intros ->; congruence).
  assert (subset_at (store st q u) a s (Some q) k) as Hnew.
  { exists q, u. split; [done|]. split; [done|]. split; [|done].
    simpl. by rewrite lookup_insert_eq. }
  assert (∀ y, y ∈ elements ps →
               ∃ z, cmp_fn ps (store st q u) (Some q) y = Ret z ∧ z ≠ 0)
    as Hne.
  { intros y Hy. destruct (Hall y Hy) as (bv & Hbv & Hsub).
    pose proof Hsub as (q' & u' & -> & _ & Hq' & _).
    rewrite Hcps.
    apply (cset_compare_subsets a s w c Hord Hcmp (store st q u) q q' k bv);
      try done; try lia.
    - by apply subset_at_store.
    - intros ->. congruence. }
  destruct (cset_add_spec (store st q u) ps (Some q))
    as [[_ (y & Hy & Hy0)]|(j & Hj & -> & _)].
  - intros y Hy. destruct (Hne y Hy) as (z & -> & _). eauto.
  - destruct (Hne y Hy) as (z & Hz & Hz0). congruence.
  - eexists. split; [done|].
    split; [simpl; by rewrite lookup_insert_ne|].
    split; [done|].
    split; [unfold check_resize; by destruct (_ >=? _)|].
    split.
    { unfold n_elements in *. simpl. rewrite length_inserted by done. lia. }
    split.
    + intros p. simpl. rewrite elem_of_inserted. intros [->|Hp].
      * exists k. split; [lia | done].
      * destruct (Hall p Hp) as (bv & Hbv & Hsub).
        exists bv. split; [lia|]. by apply subset_at_store.
    + intros _. destruct (decide (k = 0)) as [->|Hk0].
      * exists (Some q). split; [|done].
        simpl. rewrite elem_of_inserted. by left.
      * destruct Hempty as (p & Hp & Hsub); [lia|]. exists p. split.
        -- simpl. rewrite elem_of_inserted. by right.
        -- by apply subset_at_store.
Qed.

Lemma powerSet_loop_spec :
  ∀ (fuel : nat) k st ps,
    generated a s w st ps k →
    1 ≤ k ≤ 2 ^ n_elements s →
    2 ^ n_elements s - k ≤ Z.of_nat fuel →
    ∃ st' ps',
      powerSet_loop fuel st (Some a) ps (n_elements s)
                    (2 ^ n_elements s) k = Ret (st', ps')
      ∧ generated a s w st' ps' (2 ^ n_elements s).
Proof using Hord Hcmp.
  induction fuel as [|fuel IH]; intros k st ps Hgen Hk Hfuel.
  - simpl. replace (_ <? _) with false by (symmetry; apply Z.ltb_ge; lia).
    assert (k = 2 ^ n_elements s) as <- by lia. eauto.
  - simpl. destruct (k <? 2 ^ n_elements s) eqn:Hlt.
    2:{ apply Z.ltb_ge in Hlt.
        assert (k = 2 ^ n_elements s) as <- by lia. eauto. }
    apply Z.ltb_lt in Hlt.
    pose proof Hgen as (Ha & Hw & _).
    rewrite Ha. cbn [mbind result_bind fst snd].
    set (q := malloc st). pose proof (malloc_fresh st) as Hq. fold q in Hq.
    set (u0 := mkCSet [] _ _ _ _ _).
    assert (q ≠ a) as Hqa by (intros ->; congruence).
    destruct (subset_loop_spec a s w c Hord Hcmp q k Hqa
                (Z.to_nat (n_elements s)) 0%nat (store st q u0) u0)
      as (u' & Hloop & Hu' & Hels'); try done.
    { simpl. by rewrite lookup_insert_ne. }
    { simpl. by rewrite lookup_insert_eq. }
    { lia. }
    { unfold n_elements. lia. }
    change (Z.of_nat 0) with 0 in Hloop. rewrite Hloop.
    cbn [mbind result_bind]. rewrite store_store.
    destruct (generated_add st ps k q u' Hgen) as (ps' & -> & Hgen');
      try done; [lia|].
    cbn [mbind result_bind snd].
    apply IH; [done | lia | lia].
Qed.

End PowerSetLoop.

Section SortedSets.

Context {A : Type}.
Implicit Types (c : A → A → Z) (l : list A).

Lemma valid_order_tail c x l : valid_order c (x :: l) → valid_order c l.
Proof.
  intros (Hr & Ha & Ht). split; [|split].
  - intros y Hy. apply Hr. by right.
  - intros y z Hy Hz. apply Ha; by right.
  - intros y z v Hy Hz Hv. apply Ht; by right.
Qed.

Lemma strictly_sorted_tail c x l :
  strictly_sorted c (x :: l) → strictly_sorted c l.
Proof. intros H i y z Hy Hz. by apply (H (S i)). Qed.

Lemma sorted_head_below c l :
  ∀ x, valid_order c (x :: l) → strictly_sorted c (x :: l) →
       ∀ y, y ∈ l → c x y < 0.
Proof.
  induction l as [|b l IH]; intros x Hv Hs y Hy.
  - by apply elem_of_nil in Hy.
  - assert (c x b < 0) as Hxb by (by apply (Hs 0%nat)).
    apply elem_of_cons in Hy as [->|Hy]; [done|].
    assert (c b y < 0) as Hby.
    { apply IH; [by eapply valid_order_tail
                | by eapply strictly_sorted_tail | done]. }
    destruct Hv as (_ & _ & Ht).
    apply (Ht x b y); try done.
    + left.
    + right. left.
    + right. by right.
Qed.

Lemma ordered_of_sorted c l :
  valid_order c l → strictly_sorted c l → ordered c l.
Proof.
  induction l as [|x l IH]; intros Hv Hs; [done|].
  simpl. split; [|split].
  - destruct Hv as (Hr & _). apply Hr. left.
  - apply Forall_forall. intros y Hy.
    assert (c x y < 0) as Hxy by (by eapply sorted_head_below).
    split; [done|].
    destruct Hv as (_ & Ha & _). apply Ha; [left | by right | done].
  - apply IH; [by eapply valid_order_tail | by eapply strictly_sorted_tail].
Qed.

End SortedSets.

Section PowerSetTheorem.

Context {W A : Type}.

(** C7 (as amended): for a set [s] of at most 30 elements that are
    strictly sorted under a comparator which is a valid total order on
    them, [cset_powerSet] returns a set of 2^n elements; each element
    points to a set for which [cset_isSubsetOf] the input holds, and one of
    them points to an empty set.  The input set is as it was. *)
Theorem C7_powerSet_of_sorted_set (st : state W A) (a : addr)
    (s : CSet W A) (c : A → A → Z) :
  sets st !! a = Some s →
  cset_size s ≤ 30 →
  (∀ x y, x ∈ elements s → y ∈ elements s →
          cmp_fn s (mem st) x y = Ret (c x y)) →
  valid_order c (elements s) →
  strictly_sorted c (elements s) →
  ∃ st' ps,
    cset_powerSet st (Some a) = Ret (st', ps)
    ∧ sets st' !! a = Some s
    ∧ cset_size ps = 2 ^ cset_size s
    ∧ (∀ p, p ∈ elements ps →
            ∃ sub, deref st' p = Ret sub
                   ∧ cset_isSubsetOf st' p (Some a) = Ret true)
    ∧ (∃ p e, p ∈ elements ps ∧ deref st' p = Ret e
              ∧ cset_isEmpty e = true).
Proof.
  intros Ha Hn Hcmp Hv Hs. unfold cset_size in *.
  pose proof (ordered_of_sorted c (elements s) Hv Hs) as Hord.
  pose proof (n_elements_nonneg s) as Hn0.
  assert (0 < 2 ^ n_elements s) as Hpow by (apply Z.pow_pos_nonneg; lia).
  unfold cset_powerSet. simpl deref. rewrite Ha. cbn [mbind result_bind].
  replace (31 <=? n_elements s) with false
    by (symmetry; apply Z.leb_gt; lia).
  rewrite Z.shiftl_1_l.
  unfold cset_create_at, cset_create. cbn [mbind result_bind fst snd].
  set (ps0 := mkCSet [] 8 _ cset_compare _ _).
  set (u0 := mkCSet [] (elemsz s) _ _ _ _).
  set (q0 := malloc st). pose proof (malloc_fresh st) as Hq0. fold q0 in Hq0.
  assert (generated a s (mem st) st ps0 0) as Hgen0.
  { split; [done|]. split; [done|]. split; [done|]. split; [done|].
    split; [|lia]. intros p Hp. by apply elem_of_nil in Hp. }
  destruct (generated_add a s (mem st) c Hord Hcmp st ps0 0 q0 u0 Hgen0)
    as (ps1 & Hadd & Hgen1).
  { lia. }
  { done. }
  { by repeat split. }
  { simpl. by rewrite pick_zero. }
  destruct (powerSet_loop_spec a s (mem st) c Hord Hcmp
              (Z.to_nat (2 ^ n_elements s)) 1 (store st q0 u0) ps1 Hgen1)
    as (st' & ps & Hloop & Ha' & Hw' & _ & Hsize & Hall & Hempty);
    [lia | lia |].
  exists st', ps.
  split; [etrans; [apply (bind_Ret _ _ _ Hadd) | exact Hloop]|].
  split; [done|]. split; [done|]. split.
  - intros p Hp. destruct (Hall p Hp) as (bv & _ & Hsub).
    destruct (subset_at_isSubsetOf a s (mem st) c Hord Hcmp st' p bv)
      as (sub & Hsub1 & _ & Hsub2); try done.
    by exists sub.
  - destruct Hempty as (p & Hp & Hsub); [lia|].
    destruct (subset_at_isSubsetOf a s (mem st) c Hord Hcmp st' p 0)
      as (e & He1 & He2 & _); try done.
    exists p, e. split; [done|]. split; [done|].
    unfold cset_isEmpty, n_elements. by rewrite He2, pick_zero.
Qed.

End PowerSetTheorem.

Module PowerWitness.
Import IntClient PowerData.

Ltac enum H :=
  repeat (apply elem_of_cons in H as [->|H]); [..|by apply elem_of_nil in H].

Lemma C7_witness :
  ∃ st' ps,
    cset_powerSet one_set (Some 1%positive) = Ret (st', ps)
    ∧ sets st' !! 1%positive = Some pair_set
    ∧ cset_size ps = 2 ^ cset_size pair_set
    ∧ (∀ p, p ∈ elements ps →
            ∃ sub, deref st' p = Ret sub
                   ∧ cset_isSubsetOf st' p (Some 1%positive) = Ret true)
    ∧ (∃ p e, p ∈ elements ps ∧ deref st' p = Ret e
              ∧ cset_isEmpty e = true).
Proof.
  apply (C7_powerSet_of_sorted_set one_set 1%positive pair_set int_sign).
  - reflexivity.
  - vm_compute. discriminate.
  - intros x y _ _. reflexivity.
  - split; [|split].
    + intros x Hx. enum Hx; reflexivity.
    + intros x y Hx Hy. enum Hx; enum Hy; vm_compute; congruence.
    + intros x y z Hx Hy Hz. enum Hx; enum Hy; enum Hz; vm_compute;
        congruence.
  - intros i x y Hx Hy.
    destruct i as [|[|i]]; simpl in Hx, Hy; try discriminate.
    injection Hx as <-. injection Hy as <-. reflexivity.
Defined.

(** C7, as stated, fails at both ends of its quantifier.  On the
    31-element set {1, ..., 31} the size of the power set is computed by
    [1 << 31] in an [int], and no set is returned.  On the set built by
    adding 5 twice, whose size is 2, the power set has 3 elements. *)
Lemma C7_counterexample :
  (r ← build_at empty_state 5 thirty_one;
   s ← deref (fst r) (snd r);
   Ret (cset_size s)) = Ret 31
  ∧ powerSet_sizes thirty_one = Fault Undefined
  ∧ powerSet_sizes [5; 5] = Ret (2, 3).
Proof. vm_compute. repeat split; reflexivity. Qed.

End PowerWitness.

(** * Further properties of insertion, search and removal *)

Section AddSearchRemove.

Context {W A : Type}.
Implicit Types (set : CSet W A) (w : W) (elem : A) (c : A → A → Z).

Lemma same_capacity_or_doubled set :
  (n_elements set < size_t (capacity set - 1)
   ∧ capacity (check_resize set) = capacity set)
  ∨ (size_t (capacity set - 1) ≤ n_elements set
     ∧ capacity (check_resize set) = size_t (capacity set * 2)).
Proof.
  unfold check_resize. rewrite Z.geb_leb.
  destruct (Z.leb_spec (size_t (capacity set - 1)) (n_elements set));
    [right | left]; done.
Qed.

(** X1: when the comparator returns on every stored slot, [cset_add]
    returns; it returns false only if a stored slot compares equal to
    [elem], and then the set is the one it was given; otherwise it returns
    true and the slots are the old ones, in their order, with [elem] put in
    at one index, so that the count grows by exactly one.  Element size and
    capabilities stay as they are. *)
Theorem X1_cset_add_rejects_or_inserts_once w set elem :
  answers w set elem →
  ∃ added set',
    cset_add w set elem = Ret (added, set')
    ∧ same_caps set set'
    ∧ (added = false →
       set' = set ∧ ∃ y, y ∈ elements set ∧ cmp_fn set w elem y = Ret 0)
    ∧ (added = true →
       cset_size set' = cset_size set + 1
       ∧ ∃ j : nat, (j ≤ length (elements set))%nat
                    ∧ elements set'
                      = take j (elements set) ++ elem :: drop j (elements set)).
Proof.
  intros Hans.
  destruct (cset_add_spec w set elem Hans)
    as [[-> Heq]|(j & Hj & -> & _)].
  - exists false, set. split; [done|]. split; [apply same_caps_refl|].
    split; [done | discriminate].
  - eexists true, _. split; [done|]. split; [apply same_caps_add|].
    split; [discriminate|]. intros _. split.
    + unfold cset_size, n_elements. simpl.
      rewrite length_inserted by done. lia.
    + by exists j.
Qed.

Lemma ordered_snoc c (l : list A) (x : A) :
  ordered c l → c x x = 0 →
  (∀ y, y ∈ l → c y x < 0 ∧ 0 < c x y) →
  ordered c (l ++ [x]).
Proof.
  induction l as [|a l IH]; intros Hord Hx Hall; simpl.
  - by repeat split.
  - destruct Hord as (Ha & Hfa & Hord). split; [done|]. split.
    + apply Forall_app. split; [done|].
      apply Forall_singleton. apply Hall. left.
    + apply IH; [done | done |]. intros y Hy. apply Hall. by right.
Qed.

(** An element that compares above every stored slot is stored last. *)
Lemma cset_add_appends w set elem c :
  (∀ y, y ∈ elements set →
        cmp_fn set w elem y = Ret (c elem y) ∧ 0 < c elem y) →
  cset_add w set elem
  = Ret (true, with_elements (check_resize set) (elements set ++ [elem])).
Proof.
  intros Hall.
  destruct (cset_add_spec w set elem)
    as [[_ (y & Hy & Hy0)]|(j & Hj & -> & Hstop)].
  - intros y Hy. destruct (Hall y Hy) as (-> & _). eauto.
  - destruct (Hall y Hy) as (Hc & Hpos). rewrite Hc in Hy0.
    injection Hy0 as Hy0. lia.
  - assert (j = length (elements set)) as ->.
    { destruct (decide (j < length (elements set))%nat) as [Hlt|]; [|lia].
      destruct (Hstop Hlt) as (y & z & Hy & Hz & Hz0).
      destruct (Hall y) as (Hc & Hpos).
      { by eapply list_elem_of_lookup_2. }
      rewrite Hc in Hz. injection Hz as <-. lia. }
    by rewrite take_ge, drop_ge by lia.
Qed.

(** X2: adding an element that compares above every stored slot of a
    sorted set returns true and stores it last; the set stays sorted. *)
Theorem X2_cset_add_of_greater_element_appends w set elem c :
  ordered c (elements set) →
  c elem elem = 0 →
  (∀ y, y ∈ elements set →
        cmp_fn set w elem y = Ret (c elem y) ∧ 0 < c elem y ∧ c y elem < 0) →
  ∃ set',
    cset_add w set elem = Ret (true, set')
    ∧ elements set' = elements set ++ [elem]
    ∧ ordered c (elements set').
Proof.
  intros Hord Hrefl Hall.
  rewrite (cset_add_appends w set elem c).
  2:{ intros y Hy. destruct (Hall y Hy) as (? & ? & _). done. }
  eexists. split; [done|]. simpl. split; [done|].
  apply ordered_snoc; [done | done |].
  intros y Hy. destruct (Hall y Hy) as (_ & ? & ?). done.
Qed.

(** X3: [cset_add] keeps the count below the capacity and never shrinks
    the capacity: if the count is below a capacity from 1 to below 2^63
    before the call, it is below the capacity after it, and the capacity
    is the old one or twice the old one. *)
Theorem X3_cset_add_keeps_count_below_capacity w set elem added set' :
  cset_add w set elem = Ret (added, set') →
  1 ≤ capacity set < 2 ^ 63 →
  n_elements set < capacity set →
  n_elements set' < capacity set'
  ∧ (capacity set' = capacity set ∨ capacity set' = 2 * capacity set).
Proof.
  intros Hadd Hcap Hn. unfold cset_add in Hadd.
  destruct (add_search _ _ _ _ _ _) as [[i|]|];
    cbn [mbind result_bind] in Hadd.
  2:{ injection Hadd as <- <-. split; [done | by left]. }
  2:{ discriminate Hadd. }
  destruct (add_scan _ _ _ _ _) as [j|]; [|discriminate Hadd].
  cbn [mbind result_bind] in Hadd. unfold insert in Hadd.
  destruct (_ && _) eqn:Hj; [|discriminate Hadd].
  cbn [mbind result_bind] in Hadd. injection Hadd as <- <-.
  apply andb_true_iff in Hj as [Hj0%Z.leb_le Hjn%Z.leb_le].
  assert (n_elements (check_resize set) = n_elements set) as Hsame
    by (unfold check_resize; by destruct (_ >=? _)).
  rewrite Hsame in Hjn.
  unfold n_elements in *. simpl.
  rewrite length_inserted by lia.
  assert (size_t (capacity set - 1) = capacity set - 1) as Hc1.
  { unfold size_t. apply Z.mod_small.
    assert (2 ^ 63 < 2 ^ 64) by done. lia. }
  assert (size_t (capacity set * 2) = capacity set * 2) as Hc2.
  { unfold size_t. apply Z.mod_small.
    assert (2 ^ 64 = 2 * 2 ^ 63) by done. lia. }
  destruct (same_capacity_or_doubled set) as [[Hlt ->]|[Hge ->]].
  - unfold n_elements in Hlt. split; [lia | by left].
  - unfold n_elements in Hge. rewrite Hc2. split; [lia | right; lia].
Qed.

End AddSearchRemove.

Section SearchRemove.

Context {W A : Type}.
Implicit Types (set : CSet W A) (w : W) (elem : A) (c : A → A → Z).

(** A slot reported by [bsearch] lies in the searched range and compares
    equal to the key. *)
Lemma bsearch_sound w (cmp : CompareFn W A) key (base : list A) (fuel : nat) :
  ∀ (l u k : Z),
    0 ≤ l →
    bsearch fuel w cmp key base l u = Ret (Some k) →
    l ≤ k < u
    ∧ ∃ y, base !! Z.to_nat k = Some y ∧ cmp w key y = Ret 0.
Proof.
  induction fuel as [|fuel IH]; intros l u k Hl Hb; simpl in Hb.
  - destruct (l <? u); discriminate Hb.
  - destruct (l <? u) eqn:Hlt; [|discriminate Hb].
    apply Z.ltb_lt in Hlt.
    rewrite Z.quot_div_nonneg in Hb by lia.
    assert (l ≤ (l + u) / 2 < u) as Hmid
      by (Z.div_mod_to_equations; lia).
    destruct (base !! Z.to_nat ((l + u) / 2)) as [p|] eqn:Hp;
      [|discriminate Hb].
    destruct (cmp w key p) as [z|] eqn:Hz; [|discriminate Hb].
    cbn [mbind result_bind] in Hb.
    destruct (z <? 0) eqn:Hneg.
    { destruct (IH _ _ _ Hl Hb) as [? ?]. split; [lia | done]. }
    rewrite Z.gtb_ltb in Hb. destruct (0 <? z) eqn:Hpos.
    { destruct (IH ((l + u) / 2 + 1) u k) as [? ?]; [lia | done |].
      split; [lia | done]. }
    injection Hb as <-. split; [lia|]. exists p. split; [done|].
    apply Z.ltb_ge in Hneg, Hpos. by replace z with 0 in Hz by lia.
Qed.

(** When the key compares unequal to every slot, [bsearch] finds none. *)
Lemma bsearch_absent w (cmp : CompareFn W A) key (base : list A) (fuel : nat) :
  (∀ y, y ∈ base → ∃ z, cmp w key y = Ret z ∧ z ≠ 0) →
  ∀ (l u : Z),
    0 ≤ l → u ≤ Z.of_nat (length base) → u - l ≤ Z.of_nat fuel →
    bsearch fuel w cmp key base l u = Ret None.
Proof.
  intros Hne. induction fuel as [|fuel IH]; intros l u Hl Hu Hfuel; simpl.
  - by replace (l <? u) with false by (symmetry; apply Z.ltb_ge; lia).
  - destruct (l <? u) eqn:Hlt; [|done].
    apply Z.ltb_lt in Hlt.
    rewrite Z.quot_div_nonneg by lia.
    assert (l ≤ (l + u) / 2 < u) as Hmid
      by (Z.div_mod_to_equations; lia).
    destruct (lookup_lt_is_Some_2 base (Z.to_nat ((l + u) / 2)))
      as [p Hp]; [lia|].
    rewrite Hp. destruct (Hne p) as (z & -> & Hz).
    { by eapply list_elem_of_lookup_2. }
    cbn [mbind result_bind].
    destruct (z <? 0) eqn:Hneg; [apply IH; lia|].
    rewrite Z.gtb_ltb. destruct (0 <? z) eqn:Hpos; [apply IH; lia|].
    apply Z.ltb_ge in Hneg, Hpos. lia.
Qed.

Lemma cset_contains_sound w set elem :
  cset_contains w set elem = Ret true →
  ∃ y, y ∈ elements set ∧ cmp_fn set w elem y = Ret 0.
Proof.
  unfold cset_contains, cset_bsearch. intros H.
  destruct (bsearch _ _ _ _ _ _ _) as [[k|]|] eqn:Hb; [|done|done].
  apply bsearch_sound in Hb as (_ & y & Hy & Hy0); [|lia].
  exists y. split; [by eapply list_elem_of_lookup_2 | done].
Qed.

(** X4: whatever the order of the slots, [cset_contains] returns true
    only if some stored slot compares equal to the value. *)
Theorem X4_cset_contains_true_has_equal_slot w set elem :
  cset_contains w set elem = Ret true →
  ∃ y, y ∈ elements set ∧ cmp_fn set w elem y = Ret 0.
Proof. apply cset_contains_sound. Qed.

(** X5: on a sorted set, [cset_contains] returns true for every stored
    value; on any set, it returns false for a value that compares unequal
    to every stored slot. *)
Theorem X5_cset_contains_on_sorted_set w set c elem :
  (∀ y, y ∈ elements set → cmp_fn set w elem y = Ret (c elem y)) →
  (ordered c (elements set) → elem ∈ elements set →
   cset_contains w set elem = Ret true)
  ∧ ((∀ y, y ∈ elements set → c elem y ≠ 0) →
     cset_contains w set elem = Ret false).
Proof.
  intros Hcmp. split.
  - intros Hord Hin. by eapply cset_contains_ordered.
  - intros Hne. unfold cset_contains, cset_bsearch.
    rewrite bsearch_absent; [done | | unfold n_elements; lia ..].
    intros y Hy. exists (c elem y). split; [by apply Hcmp | by apply Hne].
Qed.

Lemma ordered_delete c (l : list A) (k : nat) :
  ordered c l → ordered c (delete k l).
Proof.
  revert k. induction l as [|a l IH]; intros k Hord; [by destruct k|].
  destruct Hord as (Ha & Hall & Hord). destruct k as [|k]; [done|].
  simpl. split; [done|]. split; [by apply Forall_delete | by apply IH].
Qed.

(** X7: removing a value that compares unequal to every stored slot
    returns false and hands back the set and the client's memory as they
    were. *)
Theorem X7_cset_remove_of_absent_value w set c elem :
  (∀ y, y ∈ elements set →
        cmp_fn set w elem y = Ret (c elem y) ∧ c elem y ≠ 0) →
  cset_remove w set elem = Ret (false, set, w).
Proof.
  intros Hne. unfold cset_remove, cset_bsearch.
  rewrite bsearch_absent; [done | | unfold n_elements; lia ..].
  intros y Hy. exists (c elem y). by apply Hne.
Qed.

End SearchRemove.

(** * Creation, clearing, deletion and iteration *)

Section Lifecycle.

Context {W A : Type}.
Implicit Types (set : CSet W A) (w : W) (elem : A) (st : state W A).

Lemma cleanup_all_foldl (f : CleanupElemFn W A) (record : W → A → W)
    (l : list A) :
  (∀ x w, f x w = Ret (record w x)) →
  ∀ w, cleanup_all f l w = Ret (foldl record w l).
Proof.
  intros Hf. induction l as [|x l IH]; intros w; simpl; [done|].
  rewrite Hf. cbn [mbind result_bind]. apply IH.
Qed.

(** X9: [cset_clear] hands every stored slot to the cleanup callback,
    once each and in index order: for a callback that changes the client's
    memory by [record], the memory after the call is the fold of [record]
    over the slots from index 0 up; without a callback it is left alone.
    Whenever [cset_clear] returns, the set has no element and keeps its
    capacity and capabilities. *)
Theorem X9_cset_clear_cleans_every_slot_in_order w set :
  (cleanup_fn set = None →
   cset_clear w set = Ret (with_elements set [], w))
  ∧ (∀ (f : CleanupElemFn W A) (record : W → A → W),
       cleanup_fn set = Some f →
       (∀ x w0, f x w0 = Ret (record w0 x)) →
       cset_clear w set
       = Ret (with_elements set [], foldl record w (elements set)))
  ∧ (∀ set' w', cset_clear w set = Ret (set', w') →
                cset_isEmpty set' = true
                ∧ capacity set' = capacity set
                ∧ same_caps set set').
Proof.
  split; [|split].
  - intros Hf. unfold cset_clear, cleanup_elements. by rewrite Hf.
  - intros f record Hf Hrec. unfold cset_clear, cleanup_elements.
    rewrite Hf. by rewrite (cleanup_all_foldl f record).
  - intros set' w' H. unfold cset_clear in H.
    destruct (cleanup_elements set w) as [w1|]; [|discriminate H].
    cbn [mbind result_bind] in H. injection H as <- <-.
    by repeat split.
Qed.

End Lifecycle.

Section Iterators.

Context {W A : Type}.
Implicit Types (set : CSet W A).

Lemma int32_small (z : Z) : 0 ≤ z < 2 ^ 31 → int32 z = z.
Proof.
  intros Hz. unfold int32.
  rewrite Z.mod_small; [lia|].
  assert (2 ^ 32 = 2 * 2 ^ 31) by done. lia.
Qed.

Section Layout.

Variable set : CSet W A.
Hypothesis Hsz : 0 < elemsz set.
Hypothesis Hn : n_elements set < 2 ^ 31.
Hypothesis Hfit : n_elements set * elemsz set < 2 ^ 64.

Lemma nth_address_live (i : Z) :
  0 ≤ i ≤ n_elements set → nth_address set i = i * elemsz set.
Proof using All.
  intros Hi. unfold nth_address, size_t. apply Z.mod_small. nia.
Qed.

Lemma get_index_nth_address (i : Z) :
  0 ≤ i ≤ n_elements set →
  i < 2 ^ 31 →
  get_index set (nth_address set i) = Ret i.
Proof using All.
  intros Hi Hi31. unfold get_index.
  replace (elemsz set =? 0) with false by (symmetry; apply Z.eqb_neq; lia).
  rewrite nth_address_live by done.
  unfold size_t. rewrite Z.mod_small by nia.
  rewrite Z.quot_mul by lia. by rewrite int32_small by lia.
Qed.

Lemma visit_from (fuel : nat) :
  ∀ i : nat,
    (i < length (elements set))%nat →
    (length (elements set) - i ≤ fuel)%nat →
    visit fuel set (Some (nth_address set (Z.of_nat i)))
    = Ret ((λ j : nat, nth_address set (Z.of_nat j))
             <$> seq i (length (elements set) - i)).
Proof using All.
  unfold n_elements in Hn.
  induction fuel as [|fuel IH]; intros i Hi Hfuel; [lia|].
  simpl. unfold cset_next.
  rewrite get_index_nth_address by (unfold n_elements; lia).
  cbn [mbind result_bind]. unfold n_elements at 1.
  destruct (Z.of_nat i =? Z.of_nat (length (elements set)) - 1) eqn:Hlast.
  - apply Z.eqb_eq in Hlast.
    replace (length (elements set) - i)%nat with 1%nat by lia.
    cbn [mbind result_bind]. by destruct fuel.
  - apply Z.eqb_neq in Hlast. cbn [mbind result_bind].
    replace (Z.of_nat i + 1) with (Z.of_nat (S i)) by lia.
    rewrite IH by lia. cbn [mbind result_bind].
    replace (length (elements set) - i)%nat
      with (S (length (elements set) - S i)) by lia.
    done.
Qed.

(** X11: for a set with a positive element size whose buffer fits the
    address space, the traversal [cset_first], [cset_next], ... visits the
    addresses of the slots 0, 1, ..., n-1 in this order and then ends with
    NULL; the slots at these addresses hold the stored elements in storage
    order.  On an empty set [cset_first] is NULL. *)
Theorem X11_iteration_visits_every_slot_once :
  ∃ addresses,
    cset_traverse set = Ret addresses
    ∧ addresses
      = (λ j : nat, Z.of_nat j * elemsz set) <$> seq 0 (length (elements set))
    ∧ Forall2 (λ a x, slot_at set a = Ret x) addresses (elements set)
    ∧ (cset_first set = None ↔ elements set = []).
Proof using All.
  assert (∀ j : nat, (j ≤ length (elements set))%nat →
                     nth_address set (Z.of_nat j) = Z.of_nat j * elemsz set)
    as Haddr.
  { intros j Hj. apply nth_address_live. unfold n_elements. lia. }
  eexists. split; [|split; [reflexivity|split]].
  - unfold cset_traverse, cset_first, cset_isEmpty, n_elements.
    destruct (elements set) as [|x l] eqn:Hels; [done|].
    replace (Z.of_nat (length (x :: l)) =? 0) with false
      by (symmetry; apply Z.eqb_neq; simpl; lia).
    rewrite <- Hels.
    replace (Some 0) with (Some (nth_address set (Z.of_nat 0%nat)))
      by (rewrite Haddr by lia; f_equal; lia).
    rewrite visit_from by (rewrite Hels; simpl; lia).
    rewrite Nat.sub_0_r. f_equal.
    apply list_fmap_ext. intros k j Hj. apply Haddr.
    apply lookup_seq in Hj as [-> Hk]. rewrite Hels in Hk. simpl in *. lia.
  - apply Forall2_same_length_lookup. split.
    { by rewrite length_fmap, length_seq. }
    intros k a x Ha Hx.
    rewrite list_lookup_fmap in Ha.
    destruct (seq 0 (length (elements set)) !! k) as [j|] eqn:Hj;
      [|done].
    apply lookup_seq in Hj as [-> Hk]. simpl in Ha. injection Ha as <-.
    unfold slot_at. rewrite <- Haddr by lia.
    rewrite get_index_nth_address by (unfold n_elements in *; lia).
    cbn [mbind result_bind].
    destruct (nth_live set (Z.of_nat k)) as (y & Hy & ->).
    { unfold n_elements. lia. }
    rewrite Nat2Z.id in Hy. congruence.
  - unfold cset_first, cset_isEmpty, n_elements.
    destruct (elements set); simpl; [done|].
    split; [|done]. intros H.
    by replace (Z.pos (Pos.of_succ_nat (length l)) =? 0) with false in H.
Qed.

End Layout.

End Iterators.

(** * Removal *)

Section Removal.

Context {W A : Type}.
Implicit Types (set : CSet W A) (w : W) (elem : A) (c : A → A → Z).

(** With a positive element size, stored slots of fewer than 2^31 bytes
    and a buffer with room for one more slot, the [int] arithmetic of
    [cset_remove] is exact and the move deletes slot [k]. *)
Lemma remove_move_exact set (k : nat) :
  0 < elemsz set →
  n_elements set * elemsz set < 2 ^ 31 →
  n_elements set < capacity set →
  (k < length (elements set))%nat →
  get_index set (nth_address set (Z.of_nat k)) = Ret (Z.of_nat k)
  ∧ remove_move set (Z.of_nat k) (Z.of_nat k)
      (int32 (size_t (size_t (n_elements set - Z.of_nat k) * elemsz set)))
    = Ret (delete k (elements set)).
Proof.
  intros Hsz Hfit Hcap Hk.
  assert (0 ≤ n_elements set) by (unfold n_elements; lia).
  assert (Z.of_nat k < n_elements set) as Hkn by (unfold n_elements; lia).
  assert (n_elements set ≤ n_elements set * elemsz set) by nia.
  split; [by rewrite get_index_nth_address by lia|].
  set (m := n_elements set - Z.of_nat k).
  assert (0 < m ≤ n_elements set) as Hm by (subst m; lia).
  assert (0 ≤ m * elemsz set < 2 ^ 31) as Hbytes by nia.
  assert (size_t m = m) as ->.
  { unfold size_t. apply Z.mod_small. lia. }
  assert (size_t (m * elemsz set) = m * elemsz set) as ->.
  { unfold size_t. apply Z.mod_small. lia. }
  rewrite int32_small by done.
  unfold remove_move.
  replace (m * elemsz set <? 0) with false by (symmetry; apply Z.ltb_ge; lia).
  rewrite Z.rem_mul by lia. simpl negb. cbv iota.
  rewrite Z.quot_mul by lia.
  replace (Z.to_nat (Z.of_nat k + 1)) with (S k) by lia.
  rewrite Nat2Z.id.
  rewrite (take_ge (drop (S k) (elements set)))
    by (rewrite length_drop; unfold n_elements in *; lia).
  rewrite length_drop.
  replace (0 <=? Z.of_nat k) with true by (symmetry; apply Z.leb_le; lia).
  replace (0 <=? Z.of_nat k + 1) with true
    by (symmetry; apply Z.leb_le; lia).
  replace (Z.of_nat k + 1 + m <=? capacity set) with true
    by (symmetry; apply Z.leb_le; lia).
  replace (Z.of_nat k + m <=? capacity set) with true
    by (symmetry; apply Z.leb_le; lia).
  replace (n_elements set - 1
           <=? Z.of_nat k + Z.of_nat (length (elements set) - S k))
    with true by (symmetry; apply Z.leb_le; unfold n_elements; lia).
  rewrite orb_true_r. simpl andb. cbv iota.
  rewrite (drop_ge (elements set) (Z.to_nat (Z.of_nat k + m)))
    by (subst m; unfold n_elements in *; lia).
  rewrite app_nil_r, <- delete_take_drop.
  rewrite take_ge; [done|].
  rewrite length_delete by (by apply lookup_lt_is_Some_2).
  unfold n_elements. lia.
Qed.

(** X6: on a set with a positive element size whose stored slots take
    fewer than 2^31 bytes and whose count is below its capacity, removing
    a stored value from a sorted set returns true, deletes exactly its slot (the later slots move down in
    order, the earlier ones stay), keeps the set sorted, its capacity and
    capabilities, leaves the client's memory alone, and [cset_contains] of
    the value is false afterwards. *)
Theorem X6_cset_remove_from_sorted_set w set c (k : nat) elem :
  0 < elemsz set →
  n_elements set * elemsz set < 2 ^ 31 →
  n_elements set < capacity set →
  ordered c (elements set) →
  elements set !! k = Some elem →
  (∀ y, y ∈ elements set → cmp_fn set w elem y = Ret (c elem y)) →
  ∃ set',
    cset_remove w set elem = Ret (true, set', w)
    ∧ elements set' = delete k (elements set)
    ∧ cset_size set' = cset_size set - 1
    ∧ capacity set' = capacity set
    ∧ same_caps set set'
    ∧ ordered c (elements set')
    ∧ cset_contains w set' elem = Ret false.
Proof.
  intros Hsz Hfit Hcap Hord Hk Hcmp.
  pose proof (lookup_lt_Some _ _ _ Hk) as Hlen.
  unfold cset_remove, cset_bsearch.
  rewrite (bsearch_finds w (cmp_fn set) c (elements set) k elem);
    unfold n_elements; try done; try lia.
  cbn [mbind result_bind]. fold (n_elements set).
  destruct (remove_move_exact set k) as [-> Hmove]; try done.
  cbn [mbind result_bind]. rewrite Hmove.
  cbn [mbind result_bind].
  eexists. split; [reflexivity|]. simpl.
  split; [reflexivity|]. split.
  { unfold cset_size, n_elements. simpl. rewrite length_delete by eauto.
    lia. }
  split; [done|]. split; [by repeat split|].
  split; [by apply ordered_delete|].
  unfold cset_contains, cset_bsearch.
  cbn [with_elements elements cmp_fn].
  rewrite bsearch_absent; [reflexivity | | unfold n_elements; simpl ..].
  2:{ lia. }
  2:{ rewrite length_delete by eauto. lia. }
  2:{ rewrite length_delete by eauto. lia. }
  intros y Hy. apply list_elem_of_lookup_1 in Hy as [j Hj].
  destruct (decide (j < k)%nat) as [Hjk|Hjk].
  - rewrite list_lookup_delete_lt in Hj by done.
    exists (c elem y). split.
    { apply Hcmp. by eapply list_elem_of_lookup_2. }
    destruct (ordered_lookup c _ j k y elem Hord Hj Hk) as [Hlt _].
    destruct (Hlt Hjk). lia.
  - rewrite list_lookup_delete_ge in Hj by lia.
    exists (c elem y). split.
    { apply Hcmp. by eapply list_elem_of_lookup_2. }
    destruct (ordered_lookup c _ k (S j) elem y Hord Hk Hj) as [Hlt _].
    destruct Hlt; lia.
Qed.

End Removal.

(** * The subset test and the comparison of sets *)

Section SubsetAndCompare.

Context {W A : Type}.
Implicit Types (st : state W A) (s : CSet W A) (a : addr).

Lemma isSubsetOf_loop_sound st a1 a2 s1 s2 :
  sets st !! a1 = Some s1 → sets st !! a2 = Some s2 →
  ∀ (fuel : nat) (i : Z),
    0 ≤ i →
    isSubsetOf_loop fuel st (Some a1) (Some a2) i = Ret true →
    ∀ (j : nat) x,
      i ≤ Z.of_nat j → elements s1 !! j = Some x →
      ∃ y, y ∈ elements s2 ∧ cmp_fn s2 (mem st) x y = Ret 0.
Proof.
  intros H1 H2. induction fuel as [|fuel IH]; intros i Hi Hloop j x Hj Hx;
    simpl in Hloop; rewrite H1 in Hloop; cbn [mbind result_bind] in Hloop;
    pose proof (lookup_lt_Some _ _ _ Hx) as Hlen;
    destruct (i <? n_elements s1) eqn:Hlt;
    try (apply Z.ltb_ge in Hlt; unfold n_elements in Hlt; lia);
    try discriminate Hloop.
  apply Z.ltb_lt in Hlt.
  destruct (nth_live s1 i) as (xi & Hxi & Hnth); [lia|].
  rewrite Hnth in Hloop. cbn [mbind result_bind] in Hloop.
  unfold cset_contains_at in Hloop. simpl deref in Hloop.
  rewrite H2 in Hloop. cbn [mbind result_bind] in Hloop.
  destruct (cset_contains (mem st) s2 xi) as [[|]|] eqn:Hc;
    cbn [mbind result_bind negb] in Hloop; try discriminate Hloop.
  destruct (decide (Z.of_nat j = i)) as [<-|Hne].
  - rewrite Nat2Z.id in Hxi. replace xi with x in Hc by congruence.
    by apply cset_contains_sound.
  - apply (IH (i + 1)) with (j := j); [lia | done | lia | done].
Qed.

(** X12: [cset_isSubsetOf] of a set and itself is true without any
    comparison.  For two different allocated sets, a result of true means
    that every slot of the first compares equal, under the second set's
    comparator, to a slot of the second; and the result is true whenever
    the second set is sorted and holds every slot of the first. *)
Theorem X12_cset_isSubsetOf_meaning st a1 a2 s1 s2 :
  sets st !! a1 = Some s1 →
  sets st !! a2 = Some s2 →
  a1 ≠ a2 →
  cset_isSubsetOf st (Some a1) (Some a1) = Ret true
  ∧ (cset_isSubsetOf st (Some a1) (Some a2) = Ret true →
     ∀ x, x ∈ elements s1 →
          ∃ y, y ∈ elements s2 ∧ cmp_fn s2 (mem st) x y = Ret 0)
  ∧ (∀ c : A → A → Z,
       ordered c (elements s2) →
       (∀ x y, x ∈ elements s2 → y ∈ elements s2 →
               cmp_fn s2 (mem st) x y = Ret (c x y)) →
       (∀ x, x ∈ elements s1 → x ∈ elements s2) →
       cset_isSubsetOf st (Some a1) (Some a2) = Ret true).
Proof.
  intros H1 H2 Hne. split; [|split].
  - unfold cset_isSubsetOf. by rewrite decide_True.
  - unfold cset_isSubsetOf. rewrite decide_False by congruence.
    simpl deref. rewrite H1. cbn [mbind result_bind].
    intros Hloop x [j Hj]%list_elem_of_lookup_1.
    eapply (isSubsetOf_loop_sound st a1 a2 s1 s2 H1 H2 _ 0);
      [lia | done | | done]. lia.
  - intros c Hord Hcmp Hsub. unfold cset_isSubsetOf.
    rewrite decide_False by congruence.
    simpl deref. rewrite H1. cbn [mbind result_bind].
    apply (isSubsetOf_loop_true a2 s2 (mem st) c Hord Hcmp st a1 s1)
      with (i := 0%nat); try done. lia.
Qed.

Lemma compare_loop_zero (cmp : CompareFn W A) (w : W) (l1 l2 : list A) :
  length l1 = length l2 →
  compare_loop cmp w l1 l2 = Ret 0
  ↔ Forall2 (λ x y, cmp w x y = Ret 0) l1 l2.
Proof.
  revert l2. induction l1 as [|x l1 IH]; intros [|y l2] Hlen;
    simpl in *; try discriminate.
  - split; [constructor | done].
  - injection Hlen as Hlen. split.
    + intros H. destruct (cmp w x y) as [z|] eqn:Hz; [|discriminate H].
      cbn [mbind result_bind] in H. case_bool_decide as Hz0.
      { injection H as ->. done. }
      assert (z = 0) as -> by (destruct (decide (z = 0)); [done|tauto]).
      constructor; [done | by apply IH].
    + intros H. inversion H as [|???? Hxy Hrest]; subst.
      rewrite Hxy. cbn [mbind result_bind].
      rewrite bool_decide_eq_false_2 by lia. by apply IH.
Qed.

Lemma int32_of_difference (e1 e2 : Z) :
  0 ≤ e1 < 2 ^ 31 → 0 ≤ e2 < 2 ^ 31 → e1 ≠ e2 →
  int32 (size_t (e1 - e2)) ≠ 0.
Proof.
  intros H1 H2 Hne. unfold int32, size_t.
  change (2 ^ 64) with 18446744073709551616.
  change (2 ^ 32) with 4294967296.
  change (2 ^ 31) with 2147483648 in *.
  Z.div_mod_to_equations. lia.
Qed.

(** X13: [cset_compare] returns 0 on two allocated sets with element
    sizes below 2^31 exactly when they are the same set, or they have the
    same count and element size and their slots compare equal pairwise, in
    order, under the first set's comparator. *)
Theorem X13_cset_compare_zero st p1 p2 s1 s2 :
  deref st p1 = Ret s1 →
  deref st p2 = Ret s2 →
  0 ≤ elemsz s1 < 2 ^ 31 →
  0 ≤ elemsz s2 < 2 ^ 31 →
  cset_compare st p1 p2 = Ret 0
  ↔ p1 = p2
    ∨ (cset_size s1 = cset_size s2
       ∧ elemsz s1 = elemsz s2
       ∧ Forall2 (λ x y, cmp_fn s1 (mem st) x y = Ret 0)
                 (elements s1) (elements s2)).
Proof.
  intros H1 H2 He1 He2. unfold cset_compare, cset_size.
  case_bool_decide as Hp; [by split; [left|]|].
  rewrite H1, H2. cbn [mbind result_bind].
  case_bool_decide as Hn.
  { split.
    - intros [= H]. lia.
    - intros [?|(? & _)]; done. }
  case_bool_decide as He.
  { split.
    - intros [= H]. by apply int32_of_difference in H.
    - intros [?|(_ & ? & _)]; done. }
  assert (n_elements s1 = n_elements s2) as Hn'
    by (destruct (decide (n_elements s1 = n_elements s2)); [done|tauto]).
  assert (elemsz s1 = elemsz s2) as He'
    by (destruct (decide (elemsz s1 = elemsz s2)); [done|tauto]).
  rewrite compare_loop_zero by (unfold n_elements in Hn'; lia).
  split; [by right | intros [?|(_ & _ & ?)]; done].
Qed.

End SubsetAndCompare.

(** * What the set-algebra operations put into the new set *)

Section LoopInvariant.

Context {W A : Type}.
Implicit Types (set s u : CSet W A) (w : W) (st : state W A) (a d : addr).

(** The loop of union, intersect and difference keeps any property of
    the new set's slots that survives the three outcomes of one round: the
    slot is not kept, it is kept and [cset_add] finds an equal slot, or it
    is kept and [cset_add] puts it in at some index. *)
Lemma add_loop_invariant (h : gmap addr (CSet W A)) w d a s b
    (bound : state W A → result Z)
    (keep : state W A → A → result bool) u0
    (kp : A → bool) (Inv : nat → list A → Prop) :
  h !! a = Some s →
  h !! d = None →
  0 ≤ b ≤ n_elements s →
  (∀ u, bound (filling h w d u) = Ret b) →
  (∀ u x, x ∈ elements s → keep (filling h w d u) x = Ret (kp x)) →
  (∀ (i : nat) x l, elements s !! i = Some x → kp x = true → Inv i l →
                     ∀ y, y ∈ l → ∃ z, cmp_fn u0 w x y = Ret z) →
  (∀ (i : nat) x l, elements s !! i = Some x → kp x = false →
                     Inv i l → Inv (S i) l) →
  (∀ (i : nat) x l, elements s !! i = Some x → kp x = true → Inv i l →
                     (∃ y, y ∈ l ∧ cmp_fn u0 w x y = Ret 0) →
                     Inv (S i) l) →
  (∀ (i : nat) x l (j : nat),
     elements s !! i = Some x → kp x = true → Inv i l →
     (j ≤ length l)%nat →
     ((j < length l)%nat →
      ∃ y z, l !! j = Some y ∧ cmp_fn u0 w x y = Ret z ∧ z ≤ 0) →
     Inv (S i) (take j l ++ x :: drop j l)) →
  ∀ (fuel i : nat) u,
    same_caps u0 u →
    Inv i (elements u) →
    Z.of_nat i ≤ b →
    b - Z.of_nat i ≤ Z.of_nat fuel →
    ∃ u', add_loop fuel bound keep (filling h w d u) (Some d) (Some a)
                   (Z.of_nat i)
          = Ret (filling h w d u')
          ∧ same_caps u0 u'
          ∧ Inv (Z.to_nat b) (elements u').
Proof.
  intros Ha Hd Hb Hbound Hkeep Hc Hskip Hdup Hins.
  assert (a ≠ d) as Had by (intros ->; congruence).
  induction fuel as [|fuel IH]; intros i u Hu Hinv Hi Hfuel; simpl;
    rewrite Hbound; cbn [mbind result_bind].
  - replace (Z.of_nat i <? b) with false by (symmetry; apply Z.ltb_ge; lia).
    exists u. replace (Z.to_nat b) with i by lia. done.
  - destruct (Z.of_nat i <? b) eqn:Hlt.
    2:{ apply Z.ltb_ge in Hlt. exists u.
        replace (Z.to_nat b) with i by lia. done. }
    apply Z.ltb_lt in Hlt.
    rewrite lookup_insert_ne by done. rewrite Ha. cbn [mbind result_bind].
    destruct (nth_live s (Z.of_nat i)) as (x & Hx & ->); [lia|].
    rewrite Nat2Z.id in Hx.
    cbn [mbind result_bind].
    rewrite Hkeep by (by eapply list_elem_of_lookup_2).
    cbn [mbind result_bind].
    replace (Z.of_nat i + 1) with (Z.of_nat (S i)) by lia.
    destruct (kp x) eqn:Hkp.
    + unfold cset_add_at. simpl deref. rewrite lookup_insert_eq.
      cbn [mbind result_bind]. simpl mem.
      assert (cmp_fn u = cmp_fn u0) as Hcu by (by destruct Hu as (_ & ? & _)).
      destruct (cset_add_spec w u x) as [[-> Heq]|(j & Hj & -> & Hstop)].
      { intros y Hy. rewrite Hcu. by eapply Hc. }
      * cbn [mbind result_bind snd]. unfold store. simpl sets. simpl mem.
        rewrite insert_insert_eq.
        apply IH; [done | | lia | lia].
        rewrite Hcu in Heq. by eapply Hdup.
      * cbn [mbind result_bind snd]. unfold store. simpl sets. simpl mem.
        rewrite insert_insert_eq.
        apply IH; [| | lia | lia].
        { eapply same_caps_trans; [done | apply same_caps_add]. }
        simpl. rewrite Hcu in Hstop. by eapply Hins.
    + cbn [mbind result_bind]. apply IH; [done | | lia | lia].
      by eapply Hskip.
Qed.

End LoopInvariant.

Section Selection.

Context {W A : Type}.
Implicit Types (set s u : CSet W A) (w : W) (st : state W A) (a d : addr).

Lemma elem_of_filter_take (kp : A → bool) (l : list A) (i : nat) (y : A) :
  y ∈ List.filter kp (take i l) →
  ∃ k : nat, (k < i)%nat ∧ l !! k = Some y.
Proof.
  intros Hy. apply list_elem_of_In, List.filter_In in Hy as [Hy _].
  apply list_elem_of_In, list_elem_of_lookup_1 in Hy as [k Hk].
  apply lookup_take_Some in Hk as [Hk Hki]. eauto.
Qed.

Lemma filter_take_S (kp : A → bool) (l : list A) (i : nat) (x : A) :
  l !! i = Some x →
  List.filter kp (take (S i) l)
  = List.filter kp (take i l) ++ (if kp x then [x] else []).
Proof.
  intros Hx. rewrite (take_S_r _ _ x) by done.
  rewrite List.filter_app. simpl. by destruct (kp x).
Qed.

Lemma ordered_filter (c : A → A → Z) (kp : A → bool) (l : list A) :
  ordered c l → ordered c (List.filter kp l).
Proof.
  induction l as [|x l IH]; intros Hord; [done|].
  destruct Hord as (Hx & Hall & Hord). simpl.
  destruct (kp x); [|by apply IH].
  simpl. split; [done|]. split; [|by apply IH].
  rewrite Forall_forall in Hall. apply Forall_forall. intros y Hy.
  apply Hall. apply list_elem_of_In, List.filter_In in Hy as [Hy _].
  by apply list_elem_of_In.
Qed.

(** The loop over a sorted source copies, in order, the slots below
    [b] that are kept. *)
Lemma add_loop_selects (h : gmap addr (CSet W A)) w d a s b
    (bound : state W A → result Z)
    (keep : state W A → A → result bool) u0
    (kp : A → bool) (c : A → A → Z) :
  h !! a = Some s →
  h !! d = None →
  0 ≤ b ≤ n_elements s →
  (∀ u, bound (filling h w d u) = Ret b) →
  (∀ u x, x ∈ elements s → keep (filling h w d u) x = Ret (kp x)) →
  ordered c (elements s) →
  (∀ x y, x ∈ elements s → y ∈ elements s →
          cmp_fn u0 w x y = Ret (c x y)) →
  elements u0 = [] →
  ∃ u', add_loop (Z.to_nat b) bound keep (filling h w d u0) (Some d)
                 (Some a) 0
        = Ret (filling h w d u')
        ∧ same_caps u0 u'
        ∧ elements u' = List.filter kp (take (Z.to_nat b) (elements s)).
Proof.
  intros Ha Hd Hb Hbound Hkeep Hord Hcmp Hnil.
  assert (∀ (i : nat) x l y,
            elements s !! i = Some x →
            l = List.filter kp (take i (elements s)) → y ∈ l →
            y ∈ elements s ∧ cmp_fn u0 w x y = Ret (c x y) ∧ 0 < c x y)
    as Hbelow.
  { intros i x l y Hx -> Hy.
    apply elem_of_filter_take in Hy as (k & Hki & Hk).
    assert (x ∈ elements s) by (by eapply list_elem_of_lookup_2).
    assert (y ∈ elements s) by (by eapply list_elem_of_lookup_2).
    split; [done|]. split; [by apply Hcmp|].
    destruct (ordered_lookup c (elements s) k i y x Hord Hk Hx) as [Hlt _].
    by apply Hlt. }
  set (Inv := λ (i : nat) (l : list A),
                l = List.filter kp (take i (elements s))).
  assert (∀ (i : nat) x l, elements s !! i = Some x → kp x = true →
                            Inv i l →
                            ∀ y, y ∈ l → ∃ z, cmp_fn u0 w x y = Ret z)
    as Hans.
  { intros i x l Hx _ Hl y Hy.
    destruct (Hbelow i x l y Hx Hl Hy) as (_ & -> & _). eauto. }
  assert (∀ (i : nat) x l, elements s !! i = Some x → kp x = false →
                            Inv i l → Inv (S i) l) as Hskip.
  { intros i x l Hx Hkp ->. unfold Inv.
    rewrite (filter_take_S kp _ i x) by done.
    by rewrite Hkp, app_nil_r. }
  assert (∀ (i : nat) x l, elements s !! i = Some x → kp x = true →
                            Inv i l →
                            (∃ y, y ∈ l ∧ cmp_fn u0 w x y = Ret 0) →
                            Inv (S i) l) as Hdup.
  { intros i x l Hx Hkp Hl (y & Hy & Hy0).
    destruct (Hbelow i x l y Hx Hl Hy) as (_ & Hc & Hpos).
    rewrite Hc in Hy0. injection Hy0 as Hy0. lia. }
  assert (∀ (i : nat) x l (j : nat),
            elements s !! i = Some x → kp x = true → Inv i l →
            (j ≤ length l)%nat →
            ((j < length l)%nat →
             ∃ y z, l !! j = Some y ∧ cmp_fn u0 w x y = Ret z ∧ z ≤ 0) →
            Inv (S i) (take j l ++ x :: drop j l)) as Hins.
  { intros i x l j Hx Hkp Hl Hj Hstop.
    assert (j = length l) as ->.
    { destruct (decide (j < length l)%nat) as [Hlt|]; [|lia].
      destruct (Hstop Hlt) as (y & z & Hy & Hz & Hz0).
      destruct (Hbelow i x l y Hx Hl) as (_ & Hc & Hpos).
      { by eapply list_elem_of_lookup_2. }
      rewrite Hc in Hz. injection Hz as <-. lia. }
    rewrite take_ge, drop_ge by lia. unfold Inv.
    rewrite (filter_take_S kp _ i x) by done. by rewrite Hkp, <- Hl. }
  apply (add_loop_invariant h w d a s b bound keep u0 kp Inv
           Ha Hd Hb Hbound Hkeep Hans Hskip Hdup Hins
           (Z.to_nat b) 0%nat u0).
  - apply same_caps_refl.
  - unfold Inv. by rewrite Hnil.
  - lia.
  - lia.
Qed.

Section Operands.

Variables (st : state W A) (a1 a2 : addr) (s1 s2 : CSet W A).
Variables (c : A → A → Z) (found : A → bool).
Hypothesis (H1 : sets st !! a1 = Some s1) (H2 : sets st !! a2 = Some s2).
Hypothesis (Hsz : elemsz s1 = elemsz s2).
Hypothesis (Hord : ordered c (elements s1)).
Hypothesis (Hcmp : ∀ x y, x ∈ elements s1 → y ∈ elements s1 →
                          cmp_fn s1 (mem st) x y = Ret (c x y)).
Hypothesis (Hfound : ∀ x, x ∈ elements s1 →
                          cset_contains (mem st) s2 x = Ret (found x)).

Lemma contains_at_filling_found u x :
  x ∈ elements s1 →
  cset_contains_at (filling (sets st) (mem st) (malloc st) u) (Some a2) x
  = Ret (found x).
Proof using H2 Hfound.
  intros Hx. unfold cset_contains_at. simpl.
  rewrite lookup_insert_ne.
  - rewrite H2. cbn [mbind result_bind]. by apply Hfound.
  - intros Heq. pose proof (malloc_fresh st) as Hd. congruence.
Qed.

Lemma cset_difference_selects :
  ∃ u,
    cset_difference st (Some a1) (Some a2)
    = Ret (filling (sets st) (mem st) (malloc st) u, Some (malloc st))
    ∧ same_caps s1 u
    ∧ elements u = List.filter (λ x, negb (found x)) (elements s1).
Proof using All.
  unfold cset_difference. simpl. rewrite H1, H2. cbn [mbind result_bind].
  rewrite Hsz, Z.eqb_refl. cbn [assert mbind result_bind fst snd].
  unfold cset_create_at, cset_create. cbn [mbind result_bind fst snd].
  pose proof (malloc_fresh st) as Hd.
  set (u0 := mkCSet [] _ _ _ _ _).
  destruct (add_loop_selects (sets st) (mem st) (malloc st) a1 s1
              (n_elements s1) (size_of (Some a1))
              (λ st ith, c0 ← cset_contains_at st (Some a2) ith;
                         Ret (negb c0))
              u0 (λ x, negb (found x)) c)
    as (u1 & Hl & Hu1 & Hels); try done.
  { unfold n_elements. lia. }
  { intros u. by apply size_of_filling. }
  { intros u x Hx. by rewrite contains_at_filling_found. }
  unfold n_elements in Hl. rewrite Nat2Z.id in Hl.
  unfold filling in Hl. unfold store. rewrite Hl. cbn [mbind result_bind].
  exists u1. split; [done|]. split.
  { eapply same_caps_trans; [|done]. subst u0. by repeat split. }
  unfold n_elements in Hels. by rewrite Nat2Z.id, firstn_all in Hels.
Qed.

(** X14: on a sorted first operand, [cset_difference] returns a new set
    that holds exactly the slots of the first operand for which
    [cset_contains] on the second operand is false, in the first operand's
    order; the new set is sorted. *)
Theorem X14_cset_difference_of_sorted_set :
  ∃ st' d u,
    cset_difference st (Some a1) (Some a2) = Ret (st', Some d)
    ∧ sets st' !! d = Some u
    ∧ elements u = List.filter (λ x, negb (found x)) (elements s1)
    ∧ ordered c (elements u).
Proof using All.
  destruct cset_difference_selects as (u & -> & _ & Hels).
  eexists _, _, u. split; [done|]. simpl. rewrite lookup_insert_eq.
  split; [done|]. split; [done|]. rewrite Hels. by apply ordered_filter.
Qed.

(** X15: on a sorted first operand, [cset_intersect] returns a new set
    that holds exactly those among the first min(|a|,|b|) slots of the
    first operand for which [cset_contains] on the second operand is true,
    in order; when the first operand is not the larger one these are all
    its slots found in the second. *)
Theorem X15_cset_intersect_of_sorted_set :
  ∃ st' d u,
    cset_intersect st (Some a1) (Some a2) = Ret (st', Some d)
    ∧ sets st' !! d = Some u
    ∧ elements u
      = List.filter found
          (take (length (elements s1) `min` length (elements s2))
                (elements s1))
    ∧ ((length (elements s1) ≤ length (elements s2))%nat →
       elements u = List.filter found (elements s1))
    ∧ ordered c (elements u).
Proof using All.
  unfold cset_intersect. simpl. rewrite H1, H2. cbn [mbind result_bind].
  rewrite Hsz, Z.eqb_refl. cbn [assert mbind result_bind fst snd].
  unfold cset_create_at, cset_create. cbn [mbind result_bind fst snd].
  pose proof (malloc_fresh st) as Hd.
  set (u0 := mkCSet [] _ _ _ _ _).
  set (smaller_sz := if n_elements s1 <? n_elements s2 then _ else _).
  assert (smaller_sz
          = Z.of_nat (length (elements s1) `min` length (elements s2)))
    as Hsm.
  { subst smaller_sz. unfold n_elements.
    destruct (Z.ltb_spec (Z.of_nat (length (elements s1)))
                (Z.of_nat (length (elements s2)))); lia. }
  destruct (add_loop_selects (sets st) (mem st) (malloc st) a1 s1
              smaller_sz (λ _, Ret smaller_sz)
              (λ st ith, cset_contains_at st (Some a2) ith)
              u0 found c)
    as (u1 & Hl & _ & Hels); try done.
  { unfold n_elements. lia. }
  { intros u x Hx. by apply contains_at_filling_found. }
  unfold filling in Hl. unfold store. rewrite Hl. cbn [mbind result_bind].
  eexists _, _, u1. split; [done|]. simpl. rewrite lookup_insert_eq.
  split; [done|].
  rewrite Hsm, Nat2Z.id in Hels.
  split; [done|]. split.
  - intros Hle. rewrite Hels. by rewrite Nat.min_l, firstn_all by done.
  - rewrite Hels. apply ordered_filter.
    rewrite <- (take_drop (length (elements s1) `min` length (elements s2))
                  (elements s1)) in Hord.
    clear -Hord. revert Hord.
    generalize (take (length (elements s1) `min` length (elements s2))
                  (elements s1)) as l1.
    generalize (drop (length (elements s1) `min` length (elements s2))
                  (elements s1)) as l2.
    intros l2 l1. induction l1 as [|x l1 IH]; [done|].
    simpl. intros (Hx & Hall & Hord). split; [done|].
    split; [|by apply IH]. by apply Forall_app in Hall as [? _].
Qed.

End Operands.

End Selection.

Section Union.

Context {W A : Type}.
Implicit Types (set s u : CSet W A) (w : W) (st : state W A) (a d : addr).

(** A loop that adds every slot of the source to a set that holds [l0]
    keeps the slots of [l0], stores nothing but slots of [l0] and of the
    source, and leaves every slot of the source stored or equal to a stored
    one. *)
Lemma add_loop_covers_on (U : A → Prop)
    (h : gmap addr (CSet W A)) w d a s u0 u :
  h !! a = Some s →
  h !! d = None →
  (∀ x, x ∈ elements u → U x) →
  (∀ x, x ∈ elements s → U x) →
  (∀ x y, U x → U y → ∃ z, cmp_fn u0 w x y = Ret z) →
  same_caps u0 u →
  ∃ u', add_loop (length (elements s)) (size_of (Some a))
                 (λ _ _, Ret true) (filling h w d u) (Some d) (Some a) 0
        = Ret (filling h w d u')
        ∧ same_caps u0 u'
        ∧ (∀ x, x ∈ elements u → x ∈ elements u')
        ∧ (∀ x, x ∈ elements u' → x ∈ elements u ∨ x ∈ elements s)
        ∧ (∀ x, x ∈ elements s →
                x ∈ elements u'
                ∨ ∃ y, y ∈ elements u' ∧ cmp_fn u0 w x y = Ret 0)
        ∧ (length (elements u')
           ≤ length (elements u) + length (elements s))%nat.
Proof.
  intros Ha Hd HUu HUs Hc Hu.
  set (Inv := λ (i : nat) (l : list A),
        (∀ x, x ∈ elements u → x ∈ l)
        ∧ (∀ x, x ∈ l → x ∈ elements u ∨ x ∈ take i (elements s))
        ∧ (∀ x, x ∈ take i (elements s) →
                x ∈ l ∨ ∃ y, y ∈ l ∧ cmp_fn u0 w x y = Ret 0)
        ∧ (length l ≤ length (elements u) + i)%nat).
  assert (∀ (i : nat) x, elements s !! i = Some x →
            ∀ y, y ∈ take (S i) (elements s)
                 ↔ y ∈ take i (elements s) ∨ y = x) as Htake.
  { intros i x Hx y. rewrite (take_S_r _ _ x) by done.
    rewrite elem_of_app, list_elem_of_singleton. tauto. }
  destruct (add_loop_invariant h w d a s (n_elements s) (size_of (Some a))
              (λ _ _, Ret true) u0 (λ _, true) Inv Ha Hd)
    with (fuel := length (elements s)) (i := 0%nat) (u := u)
    as (u' & Hloop & Hu' & Hincl & Hfrom & Hcover & Hlen).
  - unfold n_elements. lia.
  - intros u1. by apply size_of_filling.
  - done.
  - intros i x l Hx _ (_ & Hfrom & _) y Hy. apply Hc.
    + apply HUs. by eapply list_elem_of_lookup_2.
    + destruct (Hfrom y Hy) as [Hyu|Hys]; [by apply HUu|].
      apply elem_of_take in Hys as (k & Hk & _).
      apply HUs. by eapply list_elem_of_lookup_2.
  - discriminate.
  - intros i x l Hx _ (Hincl & Hfrom & Hcover & Hlen) Heq.
    split; [done|]. split; [|split; [|lia]].
    + intros y Hy. destruct (Hfrom y Hy); [by left|].
      right. apply (Htake i x Hx). by left.
    + intros y [Hy| ->]%(Htake i x Hx); [by apply Hcover | by right].
  - intros i x l j Hx _ (Hincl & Hfrom & Hcover & Hlen) Hj _.
    split; [|split; [|split]].
    + intros y Hy. apply elem_of_inserted. right. by apply Hincl.
    + intros y [->|Hy]%elem_of_inserted.
      * right. apply (Htake i x Hx). by right.
      * destruct (Hfrom y Hy); [by left|].
        right. apply (Htake i x Hx). by left.
    + intros y [Hy| ->]%(Htake i x Hx).
      * destruct (Hcover y Hy) as [?|(z & ? & ?)].
        -- left. apply elem_of_inserted. by right.
        -- right. exists z. split; [|done].
           apply elem_of_inserted. by right.
      * left. apply elem_of_inserted. by left.
    + rewrite length_inserted by done. lia.
  - done.
  - split; [done|]. split; [by left|]. split; [|lia].
    intros x Hx. simpl in Hx. by apply elem_of_nil in Hx.
  - unfold n_elements. lia.
  - unfold n_elements. lia.
  - exists u'. split; [done|]. split; [done|].
    unfold n_elements in *. rewrite Nat2Z.id, firstn_all in *.
    by repeat split.
Qed.

Lemma add_loop_covers (h : gmap addr (CSet W A)) w d a s u0 u :
  h !! a = Some s →
  h !! d = None →
  total_cmp (cmp_fn u0) w →
  same_caps u0 u →
  ∃ u', add_loop (length (elements s)) (size_of (Some a))
                 (λ _ _, Ret true) (filling h w d u) (Some d) (Some a) 0
        = Ret (filling h w d u')
        ∧ same_caps u0 u'
        ∧ (∀ x, x ∈ elements u → x ∈ elements u')
        ∧ (∀ x, x ∈ elements u' → x ∈ elements u ∨ x ∈ elements s)
        ∧ (∀ x, x ∈ elements s →
                x ∈ elements u'
                ∨ ∃ y, y ∈ elements u' ∧ cmp_fn u0 w x y = Ret 0)
        ∧ (length (elements u')
           ≤ length (elements u) + length (elements s))%nat.
Proof.
  intros Ha Hd Hc Hu.
  apply (add_loop_covers_on (λ _, True)); try done;
    intros x y _ _; apply Hc.
Qed.

(** [cset_union] when the first operand's comparator returns on the slots
    of the two operands. *)
Lemma cset_union_covers_on st a1 a2 s1 s2 :
  sets st !! a1 = Some s1 →
  sets st !! a2 = Some s2 →
  elemsz s1 = elemsz s2 →
  (∀ x y, x ∈ elements s1 ∨ x ∈ elements s2 →
          y ∈ elements s1 ∨ y ∈ elements s2 →
          ∃ z, cmp_fn s1 (mem st) x y = Ret z) →
  ∃ u,
    cset_union st (Some a1) (Some a2)
    = Ret (filling (sets st) (mem st) (malloc st) u, Some (malloc st))
    ∧ same_caps s1 u
    ∧ (∀ x, x ∈ elements u → x ∈ elements s1 ∨ x ∈ elements s2)
    ∧ (∀ x, x ∈ elements s1 ∨ x ∈ elements s2 →
            x ∈ elements u
            ∨ ∃ y, y ∈ elements u ∧ cmp_fn s1 (mem st) x y = Ret 0)
    ∧ cset_size u ≤ cset_size s1 + cset_size s2.
Proof.
  intros H1 H2 Hsz Hc.
  unfold cset_union. simpl. rewrite H1, H2. cbn [mbind result_bind].
  rewrite Hsz, Z.eqb_refl. cbn [assert mbind result_bind fst snd].
  unfold cset_create_at, cset_create. cbn [mbind result_bind fst snd].
  pose proof (malloc_fresh st) as Hd.
  set (u0 := mkCSet [] _ _ _ _ _).
  assert (same_caps s1 u0) as Hu0 by (subst u0; by repeat split).
  set (U := λ x, x ∈ elements s1 ∨ x ∈ elements s2).
  destruct (add_loop_covers_on U (sets st) (mem st) (malloc st) a1 s1 u0 u0)
    as (u1 & Hl1 & Hu1 & _ & Hfrom1 & Hcover1 & Hlen1); try done.
  { intros x Hx. simpl in Hx. by apply elem_of_nil in Hx. }
  { intros x Hx. by left. }
  unfold filling in Hl1. unfold store. rewrite Hl1.
  cbn [mbind result_bind].
  destruct (add_loop_covers_on U (sets st) (mem st) (malloc st) a2 s2 u0 u1)
    as (u2 & Hl2 & Hu2 & Hincl2 & Hfrom2 & Hcover2 & Hlen2); try done.
  { intros x Hx. destruct (Hfrom1 x Hx) as [Hx0|]; [|by left].
    simpl in Hx0. by apply elem_of_nil in Hx0. }
  { intros x Hx. by right. }
  unfold filling in Hl2. rewrite Hl2. cbn [mbind result_bind].
  exists u2. split; [done|].
  split; [by eapply same_caps_trans|]. split; [|split].
  - intros x Hx. destruct (Hfrom2 x Hx) as [Hx1|]; [|by right].
    destruct (Hfrom1 x Hx1) as [Hx0|]; [|by left].
    simpl in Hx0. by apply elem_of_nil in Hx0.
  - intros x [Hx|Hx].
    + destruct (Hcover1 x Hx) as [?|(y & ? & ?)].
      * left. by apply Hincl2.
      * right. exists y. split; [by apply Hincl2 | done].
    + by apply Hcover2.
  - unfold cset_size, n_elements. simpl in Hlen1. lia.
Qed.

Lemma cset_union_covers st a1 a2 s1 s2 :
  sets st !! a1 = Some s1 →
  sets st !! a2 = Some s2 →
  elemsz s1 = elemsz s2 →
  total_cmp (cmp_fn s1) (mem st) →
  ∃ u,
    cset_union st (Some a1) (Some a2)
    = Ret (filling (sets st) (mem st) (malloc st) u, Some (malloc st))
    ∧ same_caps s1 u
    ∧ (∀ x, x ∈ elements u → x ∈ elements s1 ∨ x ∈ elements s2)
    ∧ (∀ x, x ∈ elements s1 ∨ x ∈ elements s2 →
            x ∈ elements u
            ∨ ∃ y, y ∈ elements u ∧ cmp_fn s1 (mem st) x y = Ret 0)
    ∧ cset_size u ≤ cset_size s1 + cset_size s2.
Proof.
  intros H1 H2 Hsz Hc. apply cset_union_covers_on; try done;
    intros x y _ _; apply Hc.
Qed.

(** X16: whatever the order of the operands' slots, when the first
    operand's comparator returns on every pair, [cset_union] returns a new
    set that stores only slots of the operands, at most as many as both
    operands hold together, and every slot of either operand is stored in
    it or compares equal to a stored slot. *)
Theorem X16_cset_union_covers_both_operands st a1 a2 s1 s2 :
  sets st !! a1 = Some s1 →
  sets st !! a2 = Some s2 →
  elemsz s1 = elemsz s2 →
  total_cmp (cmp_fn s1) (mem st) →
  ∃ st' d u,
    cset_union st (Some a1) (Some a2) = Ret (st', Some d)
    ∧ sets st' !! d = Some u
    ∧ (∀ x, x ∈ elements u → x ∈ elements s1 ∨ x ∈ elements s2)
    ∧ (∀ x, x ∈ elements s1 ∨ x ∈ elements s2 →
            x ∈ elements u
            ∨ ∃ y, y ∈ elements u ∧ cmp_fn s1 (mem st) x y = Ret 0)
    ∧ cset_size u ≤ cset_size s1 + cset_size s2.
Proof.
  intros H1 H2 Hsz Hc.
  destruct (cset_union_covers st a1 a2 s1 s2 H1 H2 Hsz Hc)
    as (u & -> & _ & Hrest).
  eexists _, _, u. split; [done|]. simpl. by rewrite lookup_insert_eq.
Qed.

End Union.

(** * Union, intersection and difference write to the new set only *)

Section NewSetOnly.

Context {W A : Type}.
Implicit Types (set s u : CSet W A) (w : W) (st : state W A) (a d : addr).

(** The loop of intersect and difference when the comparator of the new
    set returns on the slots of the source. *)
Lemma add_loop_frame (h : gmap addr (CSet W A)) w d a s b
    (bound : state W A → result Z)
    (keep : state W A → A → result bool) u0 (kp : A → bool) :
  h !! a = Some s →
  h !! d = None →
  0 ≤ b ≤ n_elements s →
  (∀ u, bound (filling h w d u) = Ret b) →
  (∀ u x, x ∈ elements s → keep (filling h w d u) x = Ret (kp x)) →
  (∀ x y, x ∈ elements s → y ∈ elements s →
          ∃ z, cmp_fn u0 w x y = Ret z) →
  elements u0 = [] →
  ∃ u', add_loop (Z.to_nat b) bound keep (filling h w d u0) (Some d)
                 (Some a) 0
        = Ret (filling h w d u')
        ∧ same_caps u0 u'.
Proof.
  intros Ha Hd Hb Hbound Hkeep Hcmp Hnil.
  set (Inv := λ (i : nat) (l : list A), ∀ y, y ∈ l → y ∈ elements s).
  destruct (add_loop_invariant h w d a s b bound keep u0 kp Inv
              Ha Hd Hb Hbound Hkeep)
    with (fuel := Z.to_nat b) (i := 0%nat) (u := u0)
    as (u' & Hloop & Hu' & _).
  - intros i x l Hx _ Hl y Hy. apply Hcmp; [|by apply Hl].
    by eapply list_elem_of_lookup_2.
  - done.
  - done.
  - intros i x l j Hx _ Hl _ _ y Hy. apply elem_of_inserted in Hy as [->|Hy].
    + by eapply list_elem_of_lookup_2.
    + by apply Hl.
  - apply same_caps_refl.
  - intros y Hy. rewrite Hnil in Hy. by apply elem_of_nil in Hy.
  - lia.
  - lia.
  - by exists u'.
Qed.

Section Operands.

Variables (st : state W A) (a1 a2 : addr) (s1 s2 : CSet W A).
Hypothesis (H1 : sets st !! a1 = Some s1) (H2 : sets st !! a2 = Some s2).
Hypothesis (Hsz : elemsz s1 = elemsz s2).
Hypothesis (Hcmp : ∀ x y, x ∈ elements s1 ∨ x ∈ elements s2 →
                          y ∈ elements s1 ∨ y ∈ elements s2 →
                          ∃ z, cmp_fn s1 (mem st) x y = Ret z).
Hypothesis (Hfound : ∀ x, x ∈ elements s1 →
                          ∃ b, cset_contains (mem st) s2 x = Ret b).

Lemma contains_at_filling_returns u x :
  x ∈ elements s1 →
  cset_contains_at (filling (sets st) (mem st) (malloc st) u) (Some a2) x
  = Ret (match cset_contains (mem st) s2 x with
         | Ret b => b
         | Fault _ => false
         end).
Proof using H2 Hfound.
  intros Hx. unfold cset_contains_at. simpl.
  rewrite lookup_insert_ne.
  - rewrite H2. cbn [mbind result_bind]. by destruct (Hfound x Hx) as [b ->].
  - intros Heq. pose proof (malloc_fresh st) as Hd. congruence.
Qed.

(** X19: on two allocated operands of the same element size, when the
    first operand's comparator returns on the slots of the two operands
    and [cset_contains] on the second operand returns for the slots of
    the first, each of [cset_union], [cset_intersect] and
    [cset_difference] returns a set with the first operand's capabilities
    at an address that was not allocated before the call, so at neither
    operand's; every set allocated before the call, the operands
    included, is as it was, and the client's memory is untouched. *)
Theorem X19_union_intersect_difference_write_new_set_only :
  writes_new_set_only st s1 (cset_union st (Some a1) (Some a2))
  ∧ writes_new_set_only st s1 (cset_intersect st (Some a1) (Some a2))
  ∧ writes_new_set_only st s1 (cset_difference st (Some a1) (Some a2)).
Proof using All.
  pose proof (malloc_fresh st) as Hd.
  split; [|split].
  - destruct (cset_union_covers_on st a1 a2 s1 s2 H1 H2 Hsz Hcmp)
      as (u & -> & Hu & _).
    eexists _, _, u. by do 4 (split; [done|]).
  - unfold cset_intersect. simpl. rewrite H1, H2. cbn [mbind result_bind].
    rewrite Hsz, Z.eqb_refl. cbn [assert mbind result_bind fst snd].
    unfold cset_create_at, cset_create. cbn [mbind result_bind fst snd].
    set (u0 := mkCSet [] _ _ _ _ _).
    set (smaller_sz := if n_elements s1 <? n_elements s2 then _ else _).
    assert (0 ≤ smaller_sz ≤ n_elements s1) as Hsm.
    { subst smaller_sz. unfold n_elements.
      destruct (Z.ltb_spec (Z.of_nat (length (elements s1)))
                  (Z.of_nat (length (elements s2)))); lia. }
    destruct (add_loop_frame (sets st) (mem st) (malloc st) a1 s1
                smaller_sz (λ _, Ret smaller_sz)
                (λ st ith, cset_contains_at st (Some a2) ith) u0
                (λ x, match cset_contains (mem st) s2 x with
                      | Ret b => b
                      | Fault _ => false
                      end))
      as (u1 & Hl & Hu1); try done.
    { intros u x Hx. by apply contains_at_filling_returns. }
    { intros x y Hx Hy. apply Hcmp; by left. }
    unfold filling in Hl. unfold store. rewrite Hl.
    cbn [mbind result_bind].
    eexists _, _, u1. do 4 (split; [done|]).
    eapply same_caps_trans; [|exact Hu1]. subst u0. by repeat split.
  - unfold cset_difference. simpl. rewrite H1, H2. cbn [mbind result_bind].
    rewrite Hsz, Z.eqb_refl. cbn [assert mbind result_bind fst snd].
    unfold cset_create_at, cset_create. cbn [mbind result_bind fst snd].
    set (u0 := mkCSet [] _ _ _ _ _).
    destruct (add_loop_frame (sets st) (mem st) (malloc st) a1 s1
                (n_elements s1) (size_of (Some a1))
                (λ st ith, c0 ← cset_contains_at st (Some a2) ith;
                           Ret (negb c0))
                u0
                (λ x, negb (match cset_contains (mem st) s2 x with
                            | Ret b => b
                            | Fault _ => false
                            end)))
      as (u1 & Hl & Hu1); try done.
    { unfold n_elements. lia. }
    { intros u. by apply size_of_filling. }
    { intros u x Hx. by rewrite contains_at_filling_returns. }
    { intros x y Hx Hy. apply Hcmp; by left. }
    unfold n_elements in Hl. rewrite Nat2Z.id in Hl.
    unfold filling in Hl. unfold store. rewrite Hl.
    cbn [mbind result_bind].
    eexists _, _, u1. do 4 (split; [done|]).
    eapply same_caps_trans; [|exact Hu1]. subst u0. by repeat split.
Qed.

End Operands.

End NewSetOnly.

(** * Sets of sets: cleanup of the nested sets *)

Section NestedCleanup.

Context {W A : Type}.
Implicit Types (st : state W A) (q : addr).

Lemma cleanup_all_nested (qs : list addr) :
  NoDup qs →
  ∀ st,
    (∀ q, q ∈ qs → ∃ u, sets st !! q = Some u ∧ cleanup_fn u = None) →
    ∃ st', cleanup_all cset_cleanup (Some <$> qs) st = Ret st'
           ∧ mem st' = mem st
           ∧ (∀ q, q ∈ qs → sets st' !! q = None)
           ∧ (∀ a, a ∉ qs → sets st' !! a = sets st !! a).
Proof.
  induction 1 as [|q qs Hq Hnd IH]; intros st Hall.
  - exists st. repeat split; try done.
    intros q Hq. by apply elem_of_nil in Hq.
  - destruct (Hall q) as (u & Hu & Hcl); [left|].
    rewrite fmap_cons. cbn [cleanup_all].
    assert (cset_cleanup (Some q) st
            = Ret (mkState (delete q (sets st)) (mem st))) as ->.
    { unfold cset_cleanup, cset_delete, cleanup_elements. simpl deref.
      rewrite Hu. cbn [mbind result_bind]. by rewrite Hcl. }
    cbn [mbind result_bind].
    destruct (IH (mkState (delete q (sets st)) (mem st)))
      as (st' & -> & Hmem & Hfreed & Hkept).
    { intros q' Hq'. destruct (Hall q') as (u' & Hu' & Hcl'); [by right|].
      exists u'. split; [|done]. simpl.
      rewrite lookup_delete_ne; [done | intros ->; done]. }
    exists st'. split; [done|]. split; [done|]. split.
    + intros q' [->|Hq']%elem_of_cons; [|by apply Hfreed].
      rewrite Hkept by done. simpl. by rewrite lookup_delete_eq.
    + intros a Ha. apply not_elem_of_cons in Ha as [Hne Ha].
      rewrite Hkept by done. simpl. by rewrite lookup_delete_ne.
Qed.

(** X17: clearing a set of sets whose cleanup capability is
    [cset_cleanup] deletes each nested set: when the stored pointers are
    pairwise different and point to allocated sets without a cleanup
    capability of their own, [cset_clear] returns the outer set without
    elements, every nested set is freed, every other set of the heap is as
    it was, and the client's memory is untouched. *)
Theorem X17_cset_clear_deletes_nested_sets st
    (ps : CSet (state W A) pointer) (qs : list addr) :
  cleanup_fn ps = Some cset_cleanup →
  elements ps = Some <$> qs →
  NoDup qs →
  (∀ q, q ∈ qs → ∃ u, sets st !! q = Some u ∧ cleanup_fn u = None) →
  ∃ st',
    cset_clear st ps = Ret (with_elements ps [], st')
    ∧ mem st' = mem st
    ∧ (∀ q, q ∈ qs → sets st' !! q = None)
    ∧ (∀ a, a ∉ qs → sets st' !! a = sets st !! a).
Proof.
  intros Hcl Hels Hnd Hall.
  destruct (cleanup_all_nested qs Hnd st Hall) as (st' & Hrun & Hrest).
  exists st'. split; [|done].
  unfold cset_clear, cleanup_elements. rewrite Hcl, Hels, Hrun. done.
Qed.

(** The cleanup loop of a set of sets faults when a stored pointer
    occurs twice or points to no allocated set. *)
Lemma cleanup_all_nested_fault (qs : list addr) :
  ∀ st,
    (∀ q, q ∈ qs → ∀ u, sets st !! q = Some u → cleanup_fn u = None) →
    (¬ NoDup qs ∨ ∃ q, q ∈ qs ∧ sets st !! q = None) →
    cleanup_all cset_cleanup (Some <$> qs) st = Fault BadDeref.
Proof.
  induction qs as [|q qs IH]; intros st Hleaf Hbad.
  { destruct Hbad as [Hnd|(q & Hq & _)].
    - destruct Hnd. constructor.
    - by apply elem_of_nil in Hq. }
  rewrite fmap_cons. cbn [cleanup_all].
  destruct (sets st !! q) as [u|] eqn:Hu.
  2:{ unfold cset_cleanup, cset_delete. simpl deref. by rewrite Hu. }
  assert (cset_cleanup (Some q) st
          = Ret (mkState (delete q (sets st)) (mem st))) as ->.
  { unfold cset_cleanup, cset_delete, cleanup_elements. simpl deref.
    rewrite Hu. cbn [mbind result_bind].
    rewrite (Hleaf q) with (u := u); [done | by left | done]. }
  cbn [mbind result_bind]. apply IH.
  - intros q' Hq' u' Hu'. simpl in Hu'.
    apply lookup_delete_Some in Hu' as [_ Hu'].
    apply (Hleaf q'); [by right | done].
  - destruct (decide (q ∈ qs)) as [Hin|Hnin].
    { right. exists q. split; [done|]. simpl. apply lookup_delete_eq. }
    destruct Hbad as [Hnd|(q' & Hq' & Hnone)].
    { left. intros Hnd'. apply Hnd. by constructor. }
    right. exists q'.
    apply elem_of_cons in Hq' as [->|Hq']; [congruence|].
    split; [done|]. simpl. rewrite lookup_delete_ne; [done|].
    by intros ->.
Qed.

(** X10: [cset_delete] of a set of sets whose cleanup capability is
    [cset_cleanup] deletes the nested sets with it.  When the stored
    pointers point to sets without a cleanup capability of their own, the
    call returns exactly when the pointers are pairwise different and all
    allocated: then the outer set and every nested set are freed, the
    sets not pointed to are as they were, the client's memory is
    untouched, and a second [cset_delete] of the outer set dereferences a
    freed address.  When a pointer is stored twice or points to a freed
    set, the call itself does. *)
Theorem X10_cset_delete_of_set_of_sets
    (ost : state (state W A) pointer) (d : addr)
    (ps : CSet (state W A) pointer) (qs : list addr) :
  sets ost !! d = Some ps →
  cleanup_fn ps = Some cset_cleanup →
  elements ps = Some <$> qs →
  (∀ q, q ∈ qs → ∀ u, sets (mem ost) !! q = Some u → cleanup_fn u = None) →
  (NoDup qs → (∀ q, q ∈ qs → is_Some (sets (mem ost) !! q)) →
   ∃ ost',
     cset_delete ost (Some d) = Ret ost'
     ∧ sets ost' !! d = None
     ∧ mem (mem ost') = mem (mem ost)
     ∧ (∀ q, q ∈ qs → sets (mem ost') !! q = None)
     ∧ (∀ a, a ∉ qs → sets (mem ost') !! a = sets (mem ost) !! a)
     ∧ cset_delete ost' (Some d) = Fault BadDeref)
  ∧ (¬ NoDup qs ∨ (∃ q, q ∈ qs ∧ sets (mem ost) !! q = None) →
     cset_delete ost (Some d) = Fault BadDeref).
Proof.
  intros Hd Hcl Hels Hleaf. split.
  - intros Hnd Hall.
    destruct (cleanup_all_nested qs Hnd (mem ost))
      as (st' & Hrun & Hmem & Hfreed & Hkept).
    { intros q Hq. destruct (Hall q Hq) as [u Hu].
      exists u. split; [done|]. by apply (Hleaf q). }
    exists (mkState (delete d (sets ost)) st').
    unfold cset_delete at 1, cleanup_elements. simpl deref. rewrite Hd.
    cbn [mbind result_bind]. rewrite Hcl, Hels, Hrun.
    cbn [mbind result_bind]. split; [done|]. simpl.
    rewrite lookup_delete_eq. repeat split; try done.
    unfold cset_delete. simpl deref. by rewrite lookup_delete_eq.
  - intros Hbad.
    unfold cset_delete, cleanup_elements. simpl deref. rewrite Hd.
    cbn [mbind result_bind]. rewrite Hcl, Hels.
    by rewrite cleanup_all_nested_fault.
Qed.

End NestedCleanup.

(** * The symmetric difference: content and cleanup *)

Section SymmetricContent.

Context {W A : Type}.
Implicit Types (u : CSet W A) (d : addr).

Lemma cset_delete_runs_cleanup (st : state W A) d u s (l : list A) :
  sets st !! d = Some u →
  cleanup_fn u = cleanup_fn s →
  elements u = l →
  cset_delete st (Some d)
  = (w ← cleanup_elements (with_elements s l) (mem st);
     Ret (mkState (delete d (sets st)) w)).
Proof.
  intros Hd Hf <-. unfold cset_delete, cleanup_elements. simpl deref.
  rewrite Hd. cbn [mbind result_bind]. simpl. by rewrite Hf.
Qed.

Variables (st : state W A) (a1 a2 : addr) (s1 s2 : CSet W A).
Variables (c1 c2 : A → A → Z) (in1 in2 : A → bool).
Hypothesis (H1 : sets st !! a1 = Some s1) (H2 : sets st !! a2 = Some s2).
Hypothesis (Hsz : elemsz s1 = elemsz s2).
Hypothesis (Hord1 : ordered c1 (elements s1)).
Hypothesis (Hord2 : ordered c2 (elements s2)).
Hypothesis (Hcmp1 : ∀ x y, x ∈ elements s1 → y ∈ elements s1 →
                           cmp_fn s1 (mem st) x y = Ret (c1 x y)).
Hypothesis (Hcmp2 : ∀ x y, x ∈ elements s2 → y ∈ elements s2 →
                           cmp_fn s2 (mem st) x y = Ret (c2 x y)).
Hypothesis (Hin2 : ∀ x, x ∈ elements s1 →
                        cset_contains (mem st) s2 x = Ret (in2 x)).
Hypothesis (Hin1 : ∀ x, x ∈ elements s2 →
                        cset_contains (mem st) s1 x = Ret (in1 x)).
Hypothesis (Hcross : ∀ x y, x ∈ elements s1 ∨ x ∈ elements s2 →
                            y ∈ elements s1 ∨ y ∈ elements s2 →
                            ∃ z, cmp_fn s1 (mem st) x y = Ret z).

Lemma cset_symmetricDifference_runs :
  let left := List.filter (λ x, negb (in2 x)) (elements s1) in
  let right := List.filter (λ x, negb (in1 x)) (elements s2) in
  ∃ d u,
    sets st !! d = None
    ∧ (∀ x, x ∈ elements u → x ∈ left ∨ x ∈ right)
    ∧ (∀ x, x ∈ left ∨ x ∈ right →
            x ∈ elements u
            ∨ ∃ y, y ∈ elements u ∧ cmp_fn s1 (mem st) x y = Ret 0)
    ∧ cset_symmetricDifference st (Some a1) (Some a2)
      = (w1 ← cleanup_elements (with_elements s1 left) (mem st);
         w2 ← cleanup_elements (with_elements s2 right) w1;
         Ret (mkState (<[d := u]> (sets st)) w2, Some d)).
Proof using All.
  intros left right. unfold cset_symmetricDifference.
  destruct (cset_difference_selects st a1 a2 s1 s2 c1 in2)
    as (u1 & -> & Hu1 & Hels1); try done.
  cbn [mbind result_bind].
  set (d1 := malloc st). pose proof (malloc_fresh st) as Hd1.
  fold d1 in Hd1.
  set (st1 := filling (sets st) (mem st) d1 u1).
  assert (a1 ≠ d1) by (intros ->; congruence).
  assert (a2 ≠ d1) by (intros ->; congruence).
  destruct (cset_difference_selects st1 a2 a1 s2 s1 c2 in1)
    as (u2 & -> & Hu2 & Hels2); try done.
  { simpl. by rewrite lookup_insert_ne. }
  { simpl. by rewrite lookup_insert_ne. }
  cbn [mbind result_bind].
  set (d2 := malloc st1). pose proof (malloc_fresh st1) as Hd2.
  fold d2 in Hd2.
  set (st2 := filling (sets st1) (mem st1) d2 u2).
  assert (d1 ≠ d2).
  { intros <-. simpl in Hd2. by rewrite lookup_insert_eq in Hd2. }
  assert (sets st !! d2 = None) as Hd2'.
  { simpl in Hd2. by rewrite lookup_insert_ne in Hd2. }
  destruct Hu1 as (Hu1a & Hu1b & Hu1c & Hu1d).
  destruct Hu2 as (Hu2a & Hu2b & Hu2c & Hu2d).
  assert (∀ x, x ∈ elements u1 → x ∈ elements s1) as Hsub1.
  { intros x Hx. rewrite Hels1 in Hx.
    apply list_elem_of_In, List.filter_In in Hx as [Hx _].
    by apply list_elem_of_In. }
  assert (∀ x, x ∈ elements u2 → x ∈ elements s2) as Hsub2.
  { intros x Hx. rewrite Hels2 in Hx.
    apply list_elem_of_In, List.filter_In in Hx as [Hx _].
    by apply list_elem_of_In. }
  destruct (cset_union_covers_on st2 d1 d2 u1 u2)
    as (u3 & -> & _ & Hfrom & Hcover & _).
  { simpl. rewrite lookup_insert_ne by done. by rewrite lookup_insert_eq. }
  { simpl. by rewrite lookup_insert_eq. }
  { congruence. }
  { simpl. rewrite Hu1b. intros x y Hx Hy. apply Hcross.
    - destruct Hx; [left; by apply Hsub1 | right; by apply Hsub2].
    - destruct Hy; [left; by apply Hsub1 | right; by apply Hsub2]. }
  cbn [mbind result_bind].
  set (d3 := malloc st2). pose proof (malloc_fresh st2) as Hd3.
  fold d3 in Hd3.
  set (st3 := filling (sets st2) (mem st2) d3 u3).
  assert (d2 ≠ d3).
  { intros <-. simpl in Hd3. by rewrite lookup_insert_eq in Hd3. }
  assert (d1 ≠ d3).
  { intros <-. simpl in Hd3.
    rewrite lookup_insert_ne, lookup_insert_eq in Hd3 by done. done. }
  assert (sets st !! d3 = None) as Hd3'.
  { simpl in Hd3. by rewrite !lookup_insert_ne in Hd3. }
  exists d3, u3. split; [done|]. split; [|split].
  - intros x Hx. rewrite Hels1, Hels2 in Hfrom. by apply Hfrom.
  - intros x Hx. rewrite Hels1, Hels2, Hu1b in Hcover. by apply Hcover.
  - rewrite (cset_delete_runs_cleanup st3 d1 u1 s1 left); [|  |done|done].
    2:{ simpl. rewrite !lookup_insert_ne by done.
        by rewrite lookup_insert_eq. }
    simpl mem.
    destruct (cleanup_elements (with_elements s1 left) (mem st))
      as [w1|f]; [|done].
    cbn [mbind result_bind].
    rewrite (cset_delete_runs_cleanup _ d2 u2 s2 right); [|  |done|done].
    2:{ simpl. rewrite lookup_delete_ne by done.
        rewrite lookup_insert_ne by done. by rewrite lookup_insert_eq. }
    simpl mem.
    destruct (cleanup_elements (with_elements s2 right) w1)
      as [w2|f]; [|done].
    cbn [mbind result_bind]. do 2 f_equal. simpl. f_equal.
    apply map_eq. intros i.
    destruct (decide (i = d3)) as [->|].
    { rewrite !lookup_delete_ne by done. by rewrite !lookup_insert_eq. }
    rewrite (lookup_insert_ne _ d3 i) by done.
    destruct (decide (i = d2)) as [->|].
    { by rewrite lookup_delete_eq. }
    rewrite lookup_delete_ne by done.
    destruct (decide (i = d1)) as [->|].
    { by rewrite lookup_delete_eq. }
    rewrite lookup_delete_ne by done.
    by rewrite !lookup_insert_ne.
Qed.

(** X18: on two sorted operands, [cset_symmetricDifference] builds its
    result from [left], the slots of the first operand not found in the
    second, and [right], the slots of the second not found in the first:
    the result stores only such slots, and each of them is stored or
    compares equal to a stored one.  Deleting the two intermediate sets
    then runs the first operand's cleanup capability on every slot of
    [left] and the second operand's on every slot of [right], although
    the operands still hold these slots: the call returns the result, at
    an address that was not allocated, exactly when these cleanup runs
    return, with the memory they leave, and faults as they do
    otherwise. *)
Theorem X18_cset_symmetricDifference_content_and_cleanup :
  let left := List.filter (λ x, negb (in2 x)) (elements s1) in
  let right := List.filter (λ x, negb (in1 x)) (elements s2) in
  ∃ d u,
    sets st !! d = None
    ∧ (∀ x, x ∈ elements u → x ∈ left ∨ x ∈ right)
    ∧ (∀ x, x ∈ left ∨ x ∈ right →
            x ∈ elements u
            ∨ ∃ y, y ∈ elements u ∧ cmp_fn s1 (mem st) x y = Ret 0)
    ∧ match (w1 ← cleanup_elements (with_elements s1 left) (mem st);
             cleanup_elements (with_elements s2 right) w1) with
      | Ret w2 =>
          ∃ st', cset_symmetricDifference st (Some a1) (Some a2)
                 = Ret (st', Some d)
                 ∧ sets st' !! d = Some u
                 ∧ mem st' = w2
      | Fault f =>
          cset_symmetricDifference st (Some a1) (Some a2) = Fault f
      end.
Proof using All.
  intros left right.
  destruct cset_symmetricDifference_runs
    as (d & u & Hd & Hfrom & Hcover & Hrun).
  fold left in Hrun. fold right in Hrun.
  exists d, u. split; [done|]. split; [done|]. split; [done|].
  rewrite Hrun.
  destruct (cleanup_elements (with_elements s1 left) (mem st))
    as [w1|f]; [|done].
  cbn [mbind result_bind].
  destruct (cleanup_elements (with_elements s2 right) w1)
    as [w2|f]; [|done].
  cbn [mbind result_bind]. eexists. split; [done|]. simpl.
  by rewrite lookup_insert_eq.
Qed.

End SymmetricContent.

(** * The further properties at concrete sets *)

Module ExtraWitness.
Import IntClient AlgebraData PowerData ExtraData.

Ltac enum H :=
  repeat (apply elem_of_cons in H as [->|H]); [..|by apply elem_of_nil in H].

Ltac decide_order :=
  simpl; repeat (split || constructor); vm_compute;
  first [reflexivity | discriminate].

Lemma X1_witness :
  ∃ added set',
    cset_add [] sorted_set 4 = Ret (added, set')
    ∧ same_caps sorted_set set'
    ∧ (added = false →
       set' = sorted_set
       ∧ ∃ y, y ∈ elements sorted_set
              ∧ cmp_fn sorted_set [] 4 y = Ret 0)
    ∧ (added = true →
       cset_size set' = cset_size sorted_set + 1
       ∧ ∃ j : nat, (j ≤ length (elements sorted_set))%nat
                    ∧ elements set'
                      = take j (elements sorted_set) ++
                        4 :: drop j (elements sorted_set)).
Proof.
  apply (X1_cset_add_rejects_or_inserts_once [] sorted_set 4).
  intros y _. eexists. reflexivity.
Defined.

Lemma X2_witness :
  ∃ set',
    cset_add [] sorted_set 9 = Ret (true, set')
    ∧ elements set' = elements sorted_set ++ [9]
    ∧ ordered int_sign (elements set').
Proof.
  apply (X2_cset_add_of_greater_element_appends [] sorted_set 9 int_sign).
  - decide_order.
  - reflexivity.
  - intros y Hy. enum Hy; decide_order.
Defined.

Lemma X3_witness :
  n_elements (with_elements sorted_set [1; 3; 4; 5; 7])
  < capacity (with_elements sorted_set [1; 3; 4; 5; 7])
  ∧ (capacity (with_elements sorted_set [1; 3; 4; 5; 7])
     = capacity sorted_set
     ∨ capacity (with_elements sorted_set [1; 3; 4; 5; 7])
       = 2 * capacity sorted_set).
Proof.
  apply (X3_cset_add_keeps_count_below_capacity [] sorted_set 4 true).
  - reflexivity.
  - decide_order.
  - reflexivity.
Defined.

Lemma X4_witness :
  ∃ y, y ∈ elements sorted_set ∧ cmp_fn sorted_set [] 5 y = Ret 0.
Proof.
  apply (X4_cset_contains_true_has_equal_slot [] sorted_set 5).
  vm_compute. reflexivity.
Defined.

Lemma X5_witness :
  (ordered int_sign (elements sorted_set) → 5 ∈ elements sorted_set →
   cset_contains [] sorted_set 5 = Ret true)
  ∧ ((∀ y, y ∈ elements sorted_set → int_sign 5 y ≠ 0) →
     cset_contains [] sorted_set 5 = Ret false).
Proof.
  apply (X5_cset_contains_on_sorted_set [] sorted_set int_sign 5).
  intros y _. reflexivity.
Defined.

Lemma X6_witness :
  ∃ set',
    cset_remove [] sorted_set 5 = Ret (true, set', [])
    ∧ elements set' = delete 2%nat (elements sorted_set)
    ∧ cset_size set' = cset_size sorted_set - 1
    ∧ capacity set' = capacity sorted_set
    ∧ same_caps sorted_set set'
    ∧ ordered int_sign (elements set')
    ∧ cset_contains [] set' 5 = Ret false.
Proof.
  apply (X6_cset_remove_from_sorted_set [] sorted_set int_sign 2%nat 5).
  - reflexivity.
  - reflexivity.
  - reflexivity.
  - decide_order.
  - reflexivity.
  - intros y _. reflexivity.
Defined.

Lemma X7_witness : cset_remove [] sorted_set 4 = Ret (false, sorted_set, []).
Proof.
  apply (X7_cset_remove_of_absent_value [] sorted_set int_sign 4).
  intros y Hy. enum Hy; (split; [reflexivity | vm_compute; discriminate]).
Defined.

Lemma X9_witness :
  cset_clear [] sorted_set = Ret (with_elements sorted_set [], [1; 3; 5; 7]).
Proof.
  apply (proj1 (proj2 (X9_cset_clear_cleans_every_slot_in_order
                         [] sorted_set))
           cleanup_int (λ w x, w ++ [x])).
  - reflexivity.
  - intros x w0. reflexivity.
Defined.

Lemma X10_witness :
  ∃ ost',
    cset_delete outer_state (Some 1%positive) = Ret ost'
    ∧ sets ost' !! 1%positive = None
    ∧ mem (mem ost') = mem (mem outer_state)
    ∧ (∀ q, q ∈ [1%positive; 2%positive] → sets (mem ost') !! q = None)
    ∧ (∀ a, a ∉ [1%positive; 2%positive] →
            sets (mem ost') !! a = sets (mem outer_state) !! a)
    ∧ cset_delete ost' (Some 1%positive) = Fault BadDeref.
Proof.
  apply (proj1 (X10_cset_delete_of_set_of_sets outer_state 1%positive
                  outer_set [1%positive; 2%positive]
                  eq_refl eq_refl eq_refl
                  ltac:(intros q Hq u Hu; enum Hq;
                        [change (Some plain_a = Some u) in Hu
                        |change (Some plain_b = Some u) in Hu];
                        by injection Hu as <-))).
  - apply (bool_decide_unpack _). vm_compute. exact I.
  - intros q Hq. enum Hq; eexists; reflexivity.
Defined.

Lemma X11_witness :
  ∃ addresses,
    cset_traverse sorted_set = Ret addresses
    ∧ addresses
      = (λ j : nat, Z.of_nat j * elemsz sorted_set)
          <$> seq 0 (length (elements sorted_set))
    ∧ Forall2 (λ a x, slot_at sorted_set a = Ret x) addresses
              (elements sorted_set)
    ∧ (cset_first sorted_set = None ↔ elements sorted_set = []).
Proof.
  apply (X11_iteration_visits_every_slot_once sorted_set).
  - reflexivity.
  - reflexivity.
  - reflexivity.
Defined.

End ExtraWitness.

Module AlgebraExtraWitness.
Import IntClient AlgebraData PowerData ExtraData NestedData.

Ltac enum H :=
  repeat (apply elem_of_cons in H as [->|H]); [..|by apply elem_of_nil in H].

Ltac decide_order :=
  simpl; repeat (split || constructor); vm_compute;
  first [reflexivity | discriminate].

Lemma X12_witness :
  cset_isSubsetOf two_sets (Some 1%positive) (Some 1%positive) = Ret true
  ∧ (cset_isSubsetOf two_sets (Some 1%positive) (Some 2%positive) = Ret true →
     ∀ x, x ∈ elements set_a →
          ∃ y, y ∈ elements set_b ∧ cmp_fn set_b (mem two_sets) x y = Ret 0)
  ∧ (∀ c : Z → Z → Z,
       ordered c (elements set_b) →
       (∀ x y, x ∈ elements set_b → y ∈ elements set_b →
               cmp_fn set_b (mem two_sets) x y = Ret (c x y)) →
       (∀ x, x ∈ elements set_a → x ∈ elements set_b) →
       cset_isSubsetOf two_sets (Some 1%positive) (Some 2%positive)
       = Ret true).
Proof.
  apply (X12_cset_isSubsetOf_meaning two_sets 1%positive 2%positive
           set_a set_b).
  - reflexivity.
  - reflexivity.
  - discriminate.
Defined.

Lemma X13_witness :
  cset_compare two_sets (Some 1%positive) (Some 2%positive) = Ret 0
  ↔ Some 1%positive = Some 2%positive
    ∨ (cset_size set_a = cset_size set_b
       ∧ elemsz set_a = elemsz set_b
       ∧ Forall2 (λ x y, cmp_fn set_a (mem two_sets) x y = Ret 0)
                 (elements set_a) (elements set_b)).
Proof.
  apply (X13_cset_compare_zero two_sets (Some 1%positive) (Some 2%positive)
           set_a set_b).
  - reflexivity.
  - reflexivity.
  - decide_order.
  - decide_order.
Defined.

Lemma X14_witness :
  ∃ st' d u,
    cset_difference two_sets (Some 1%positive) (Some 2%positive)
    = Ret (st', Some d)
    ∧ sets st' !! d = Some u
    ∧ elements u = List.filter (λ x, negb (in_b x)) (elements set_a)
    ∧ ordered int_sign (elements u).
Proof.
  apply (X14_cset_difference_of_sorted_set two_sets 1%positive 2%positive
           set_a set_b int_sign in_b).
  - reflexivity.
  - reflexivity.
  - reflexivity.
  - decide_order.
  - intros x y _ _. reflexivity.
  - intros x Hx. enum Hx; vm_compute; reflexivity.
Defined.

Lemma X15_witness :
  ∃ st' d u,
    cset_intersect two_sets (Some 1%positive) (Some 2%positive)
    = Ret (st', Some d)
    ∧ sets st' !! d = Some u
    ∧ elements u
      = List.filter in_b
          (take (length (elements set_a) `min` length (elements set_b))
                (elements set_a))
    ∧ ((length (elements set_a) ≤ length (elements set_b))%nat →
       elements u = List.filter in_b (elements set_a))
    ∧ ordered int_sign (elements u).
Proof.
  apply (X15_cset_intersect_of_sorted_set two_sets 1%positive 2%positive
           set_a set_b int_sign in_b).
  - reflexivity.
  - reflexivity.
  - reflexivity.
  - decide_order.
  - intros x y _ _. reflexivity.
  - intros x Hx. enum Hx; vm_compute; reflexivity.
Defined.

Lemma X16_witness :
  ∃ st' d u,
    cset_union two_sets (Some 1%positive) (Some 2%positive)
    = Ret (st', Some d)
    ∧ sets st' !! d = Some u
    ∧ (∀ x, x ∈ elements u → x ∈ elements set_a ∨ x ∈ elements set_b)
    ∧ (∀ x, x ∈ elements set_a ∨ x ∈ elements set_b →
            x ∈ elements u
            ∨ ∃ y, y ∈ elements u
                   ∧ cmp_fn set_a (mem two_sets) x y = Ret 0)
    ∧ cset_size u ≤ cset_size set_a + cset_size set_b.
Proof.
  apply (X16_cset_union_covers_both_operands two_sets 1%positive 2%positive
           set_a set_b).
  - reflexivity.
  - reflexivity.
  - reflexivity.
  - intros x y. eexists. reflexivity.
Defined.

Lemma X17_witness :
  ∃ st',
    cset_clear inner_heap outer_set = Ret (with_elements outer_set [], st')
    ∧ mem st' = mem inner_heap
    ∧ (∀ q, q ∈ [1%positive; 2%positive] → sets st' !! q = None)
    ∧ (∀ a, a ∉ [1%positive; 2%positive] →
            sets st' !! a = sets inner_heap !! a).
Proof.
  apply (X17_cset_clear_deletes_nested_sets inner_heap outer_set
           [1%positive; 2%positive]).
  - reflexivity.
  - reflexivity.
  - apply (bool_decide_unpack _). vm_compute. exact I.
  - intros q Hq. enum Hq; eexists; (split; reflexivity).
Defined.

Lemma X18_witness :
  ∃ d u,
    sets nested_operands !! d = None
    ∧ (∀ x, x ∈ elements u →
            x ∈ [Some 1%positive] ∨ x ∈ [Some 2%positive])
    ∧ (∀ x, x ∈ [Some 1%positive] ∨ x ∈ [Some 2%positive] →
            x ∈ elements u
            ∨ ∃ y, y ∈ elements u
                   ∧ cmp_fn set_of_x (mem nested_operands) x y = Ret 0)
    ∧ ∃ st', cset_symmetricDifference nested_operands (Some 1%positive)
               (Some 2%positive)
             = Ret (st', Some d)
             ∧ sets st' !! d = Some u
             ∧ mem st'
               = mkState (delete 2%positive
                            (delete 1%positive (sets inner_heap))) [].
Proof.
  apply (X18_cset_symmetricDifference_content_and_cleanup nested_operands
           1%positive 2%positive set_of_x set_of_y pointer_sign
           pointer_sign (λ _, false) (λ _, false)).
  - reflexivity.
  - reflexivity.
  - reflexivity.
  - decide_order.
  - decide_order.
  - intros x y Hx Hy. enum Hx. enum Hy. reflexivity.
  - intros x y Hx Hy. enum Hx. enum Hy. reflexivity.
  - intros x Hx. enum Hx. reflexivity.
  - intros x Hx. enum Hx. reflexivity.
  - intros x y [Hx|Hx] [Hy|Hy]; enum Hx; enum Hy; eexists; reflexivity.
Defined.

Lemma X19_witness :
  writes_new_set_only nested_operands set_of_x
    (cset_union nested_operands (Some 1%positive) (Some 2%positive))
  ∧ writes_new_set_only nested_operands set_of_x
      (cset_intersect nested_operands (Some 1%positive) (Some 2%positive))
  ∧ writes_new_set_only nested_operands set_of_x
      (cset_difference nested_operands (Some 1%positive) (Some 2%positive)).
Proof.
  apply (X19_union_intersect_difference_write_new_set_only nested_operands
           1%positive 2%positive set_of_x set_of_y).
  - reflexivity.
  - reflexivity.
  - reflexivity.
  - intros x y [Hx|Hx] [Hy|Hy]; enum Hx; enum Hy; eexists; reflexivity.
  - intros x Hx. enum Hx. eexists. reflexivity.
Defined.

End AlgebraExtraWitness.

